(** * RCA_CompetitorAnalysis: a shallow embedding and its verified properties

    The development follows [RCA_CompetitorAnalysis.py].

    Conventions of the embedding.
    - A calendar day ([datetime.date], or a ['%Y-%m-%d'] string holding
      one) is its proleptic Gregorian ordinal, an integer: adding
      [timedelta(days=1)] is [+ 1] and [(d - e).days] is [d - e]. The
      calendar is unbounded: the year-9999 limit of [datetime.date] is
      not part of the model.
    - A Python number holding a price, a weight or an adjustment is an
      exact rational ([Qc]); binary rounding is not part of the model.
    - A clock reading ([time.time()]) is an integer number of seconds;
      [time.sleep] advances the clock held in the client state.
    - The remote service and the login endpoint are oracles: the n-th
      POST to an endpoint receives the n-th answer of a stream. *)

From Stdlib Require Import ZArith QArith Qcanon Lia Floats.
From stdpp Require Import base gmap sets list strings sorting.

#[local] Set Warnings "-clear-no-such-hyp".
#[local] Set Warnings "-inexact-float".
Local Open Scope Z_scope.

(** A Python [int] used in float arithmetic. *)
Definition Z2Qc (z : Z) : Qc := Q2Qc (inject_Z z).

(** ** Gap analysis: [analyze_date_gaps] and the range grouping of [main] *)

Module Gap.

(** [while current <= to_date: all_dates.add(current); current += 1 day].
    The loop runs once per remaining day of the window; [fuel] bounds the
    number of iterations. *)
Fixpoint fill_dates (fuel : nat) (current to_date : Z) (all_dates : gset Z)
  : gset Z :=
  match fuel with
  | O => all_dates
  | S fuel' =>
      if bool_decide (current ≤ to_date)
      then fill_dates fuel' (current + 1) to_date ({[current]} ∪ all_dates)
      else all_dates
  end.

(** The loop of [analyze_date_gaps] started at [from_date] on the empty
    set, with one unit of fuel per day of the window. *)
Definition all_dates (from_date to_date : Z) : gset Z :=
  fill_dates (Z.to_nat (to_date - from_date + 1)) from_date to_date ∅.

(** Python's [sorted] on a set of dates. *)
Definition sorted (s : gset Z) : list Z := merge_sort Z.le (elements s).

(** [missing = sorted(all_dates - store_dates)] *)
Definition missing_dates (from_date to_date : Z) (store_dates : gset Z)
  : list Z :=
  sorted (all_dates from_date to_date ∖ store_dates).

Definition analyze_date_gaps (dates_by_store : gmap Z (gset Z))
    (from_date to_date : Z) : gmap Z (list Z) :=
  missing_dates from_date to_date <$> dates_by_store.

(** One iteration of [for d in missing_dates[1:]] in [main]: the state is
    [(ranges, start, end)]. *)
Definition range_step (st : list (Z * Z) * Z * Z) (d : Z)
  : list (Z * Z) * Z * Z :=
  let '(ranges, start, end_) := st in
  if decide (d - end_ = 1)
  then (ranges, start, d)
  else (ranges ++ [(start, end_)], d, d).

(** The final [ranges.append((start, end))] after the loop. *)
Definition close_ranges (st : list (Z * Z) * Z * Z) : list (Z * Z) :=
  let '(ranges, start, end_) := st in ranges ++ [(start, end_)].

(** The grouping of consecutive dates into ranges in [main]; a store
    without missing dates is skipped ([continue]) and yields no range. *)
Definition group_ranges (missing : list Z) : list (Z * Z) :=
  match missing with
  | [] => []
  | d0 :: rest => close_ranges (fold_left range_step rest ([], d0, d0))
  end.

(** The days a range [(range_start, range_end)] stands for. *)
Definition range_days (r : Z * Z) : list Z := seqZ r.1 (r.2 - r.1 + 1).

(** [r1] ends at least two days before [r2] starts, and both are
    well-formed: the runs are disjoint, ordered and cannot be joined. *)
Definition run_before (r1 r2 : Z * Z) : Prop :=
  r1.1 ≤ r1.2 ∧ r1.2 + 1 < r2.1 ∧ r2.1 ≤ r2.2.

(** ** Properties of the date loop *)

Lemma fill_dates_spec fuel current to_date acc d :
  (Z.to_nat (to_date - current + 1) ≤ fuel)%nat →
  d ∈ fill_dates fuel current to_date acc ↔ d ∈ acc ∨ current ≤ d ≤ to_date.
Proof.
  revert current acc.
  induction fuel as [|fuel IH]; intros current acc Hfuel; simpl.
  - split; [auto | intros [?|?]; [done | lia]].
  - case_bool_decide as Hle.
    + rewrite IH by lia. set_solver by lia.
    + split; [auto | intros [?|?]; [done | lia]].
Qed.

Lemma elem_of_all_dates from_date to_date d :
  d ∈ all_dates from_date to_date ↔ from_date ≤ d ≤ to_date.
Proof.
  unfold all_dates. rewrite fill_dates_spec by lia. set_solver.
Qed.

(** More fuel than the window has days does not change the result: the
    loop leaves by its condition, not by the bound. *)
Lemma fill_dates_fuel fuel current to_date acc :
  (Z.to_nat (to_date - current + 1) ≤ fuel)%nat →
  fill_dates fuel current to_date acc
  = fill_dates (Z.to_nat (to_date - current + 1)) current to_date acc.
Proof.
  intros Hfuel. apply set_eq. intros d.
  rewrite !fill_dates_spec by lia. done.
Qed.

(** ** Properties of [sorted] and of the missing dates *)

Lemma le_sorted_nodup_lt (l : list Z) :
  StronglySorted Z.le l → NoDup l → StronglySorted Z.lt l.
Proof.
  induction 1 as [|x l Hs IH Hall]; intros Hnd; [constructor|].
  apply NoDup_cons in Hnd as [Hx Hnd].
  constructor; [by apply IH|].
  rewrite Forall_forall in Hall |- *. intros y Hy.
  specialize (Hall y Hy).
  assert (x ≠ y) by (intros ->; done). lia.
Qed.

Lemma elem_of_sorted s d : d ∈ sorted s ↔ d ∈ s.
Proof.
  unfold sorted. rewrite merge_sort_Permutation. apply elem_of_elements.
Qed.

Lemma sorted_ascending s : StronglySorted Z.lt (sorted s).
Proof.
  apply le_sorted_nodup_lt.
  - apply (StronglySorted_merge_sort Z.le).
  - unfold sorted. rewrite merge_sort_Permutation. apply NoDup_elements.
Qed.

Lemma elem_of_missing_dates from_date to_date store_dates d :
  d ∈ missing_dates from_date to_date store_dates
  ↔ from_date ≤ d ≤ to_date ∧ d ∉ store_dates.
Proof.
  unfold missing_dates.
  rewrite elem_of_sorted, elem_of_difference, elem_of_all_dates. done.
Qed.

(** ** Properties of the range grouping *)

Lemma range_days_extend start end_ :
  start ≤ end_ →
  range_days (start, end_ + 1) = range_days (start, end_) ++ [end_ + 1].
Proof.
  intros Hle. unfold range_days; simpl.
  replace (end_ + 1 - start + 1) with ((end_ - start + 1) + 1) by lia.
  rewrite seqZ_app by lia.
  f_equal. rewrite seqZ_cons by lia. rewrite seqZ_nil by lia.
  f_equal. lia.
Qed.

Lemma range_days_single d : range_days (d, d) = [d].
Proof.
  unfold range_days; simpl. replace (d - d + 1) with 1 by lia.
  rewrite seqZ_cons by lia. by rewrite seqZ_nil by lia.
Qed.

Lemma elem_of_range_days r d : d ∈ range_days r ↔ r.1 ≤ d ≤ r.2.
Proof. unfold range_days. rewrite elem_of_seqZ. lia. Qed.

Lemma concat_range_days_snoc ranges r :
  concat (range_days <$> (ranges ++ [r]))
  = concat (range_days <$> ranges) ++ range_days r.
Proof.
  rewrite fmap_app, concat_app. simpl. by rewrite app_nil_r.
Qed.

(** The loop appends exactly the days it reads: whatever the input, the
    ranges read back as the dates processed. *)
Lemma fold_range_step_days rest ranges start end_ :
  start ≤ end_ →
  concat (range_days <$>
            close_ranges (fold_left range_step rest (ranges, start, end_)))
  = concat (range_days <$> close_ranges (ranges, start, end_)) ++ rest.
Proof.
  revert ranges start end_.
  induction rest as [|d rest IH]; intros ranges start end_ Hle; simpl.
  - by rewrite app_nil_r.
  - case_decide as Hd.
    + rewrite IH by lia. simpl.
      rewrite !concat_range_days_snoc.
      replace d with (end_ + 1) by lia.
      rewrite range_days_extend by done.
      by rewrite <- !app_assoc.
    + rewrite IH by lia. simpl.
      rewrite (concat_range_days_snoc (ranges ++ [(start, end_)])).
      rewrite range_days_single. by rewrite <- !app_assoc.
Qed.

Lemma group_ranges_days missing :
  concat (range_days <$> group_ranges missing) = missing.
Proof.
  destruct missing as [|d0 rest]; [done|]. unfold group_ranges.
  rewrite fold_range_step_days by lia. simpl.
  by rewrite range_days_single.
Qed.

#[local] Instance run_before_trans : Transitive run_before.
Proof. intros r1 r2 r3. unfold run_before. lia. Qed.

(** On ascending input the loop keeps the closed ranges ordered and apart. *)
Lemma fold_range_step_sorted rest ranges start end_ :
  start ≤ end_ →
  StronglySorted Z.lt (end_ :: rest) →
  StronglySorted run_before (close_ranges (ranges, start, end_)) →
  StronglySorted run_before
    (close_ranges (fold_left range_step rest (ranges, start, end_))).
Proof.
  revert ranges start end_.
  induction rest as [|d rest IH]; intros ranges start end_ Hle Hs Hr;
    simpl; [done|].
  apply StronglySorted_cons in Hs as [Hall Hs].
  apply Forall_cons in Hall as [Hd Hall].
  simpl in Hr. apply StronglySorted_app in Hr as (Hlast & Hranges & _).
  case_decide as Hstep.
  - apply IH; [lia|done|]. simpl.
    apply StronglySorted_app_2; [|done|repeat constructor].
    intros r1 r2 Hr1 ->%list_elem_of_singleton.
    specialize (Hlast r1 (start, end_) Hr1).
    rewrite list_elem_of_singleton in Hlast. specialize (Hlast eq_refl).
    unfold run_before in *; simpl in *. lia.
  - apply IH; [lia|done|]. simpl.
    apply StronglySorted_app_2; [| |repeat constructor].
    + intros r1 r2 Hr1 ->%list_elem_of_singleton.
      apply elem_of_app in Hr1 as [Hr1| ->%list_elem_of_singleton].
      * specialize (Hlast r1 (start, end_) Hr1).
        rewrite list_elem_of_singleton in Hlast. specialize (Hlast eq_refl).
        unfold run_before in *; simpl in *. lia.
      * unfold run_before; simpl. lia.
    + apply StronglySorted_app_2; [|done|repeat constructor].
      intros r1 r2 Hr1 Hr2. apply Hlast; done.
Qed.

Lemma fold_range_step_wf rest ranges start end_ :
  start ≤ end_ →
  StronglySorted Z.lt (end_ :: rest) →
  Forall (λ r, r.1 ≤ r.2) (close_ranges (ranges, start, end_)) →
  Forall (λ r, r.1 ≤ r.2)
    (close_ranges (fold_left range_step rest (ranges, start, end_))).
Proof.
  revert ranges start end_.
  induction rest as [|d rest IH]; intros ranges start end_ Hle Hs Hr;
    simpl; [done|].
  apply StronglySorted_cons in Hs as [Hall Hs].
  apply Forall_cons in Hall as [Hd Hall].
  simpl in Hr. apply Forall_app in Hr as [Hranges _].
  case_decide as Hstep.
  - apply IH; [lia|done|]. simpl.
    apply Forall_app; split; [done|]. repeat constructor; simpl; lia.
  - apply IH; [lia|done|]. simpl.
    rewrite !Forall_app. repeat split; try done;
      repeat constructor; simpl; lia.
Qed.

Lemma group_ranges_sorted missing :
  StronglySorted Z.lt missing →
  StronglySorted run_before (group_ranges missing).
Proof.
  destruct missing as [|d0 rest]; intros Hs; [constructor|].
  unfold group_ranges. apply fold_range_step_sorted; [lia|done|].
  simpl. repeat constructor.
Qed.

Lemma group_ranges_wf missing :
  StronglySorted Z.lt missing →
  Forall (λ r, r.1 ≤ r.2) (group_ranges missing).
Proof.
  destruct missing as [|d0 rest]; intros Hs; [constructor|].
  unfold group_ranges. apply fold_range_step_wf; [lia|done|].
  simpl. repeat constructor. simpl; lia.
Qed.

Lemma elem_of_concat_range_days ranges d :
  d ∈ concat (range_days <$> ranges) ↔ ∃ r, r ∈ ranges ∧ r.1 ≤ d ≤ r.2.
Proof.
  induction ranges as [|r0 ranges IH]; simpl.
  - split; [by intros ?%elem_of_nil | by intros (? & ?%elem_of_nil & _)].
  - rewrite elem_of_app, IH, elem_of_range_days. split.
    + intros [Hd | (r & Hr & Hd)];
        [exists r0 | exists r]; rewrite elem_of_cons; auto.
    + intros (r & [-> | Hr]%elem_of_cons & Hd); [by left | right; eauto].
Qed.

Lemma strongly_sorted_pair {A} (R : relation A) (l : list A) x y :
  StronglySorted R l → x ∈ l → y ∈ l → x = y ∨ R x y ∨ R y x.
Proof.
  induction 1 as [|z l Hs IH Hall]; [by intros ?%elem_of_nil|].
  rewrite Forall_forall in Hall.
  intros [-> | Hx]%elem_of_cons [-> | Hy]%elem_of_cons; auto.
Qed.

(** No grouped range can be extended by a missing day on either side. *)
Lemma group_ranges_maximal missing r :
  StronglySorted Z.lt missing →
  r ∈ group_ranges missing →
  ((r.1 - 1) ∉ missing) ∧ ((r.2 + 1) ∉ missing).
Proof.
  intros Hs Hr.
  pose proof (group_ranges_sorted missing Hs) as Hsorted.
  pose proof (group_ranges_wf missing Hs) as Hwf.
  rewrite Forall_forall in Hwf.
  rewrite <- (group_ranges_days missing) at 1 2.
  rewrite !elem_of_concat_range_days.
  split; intros (r' & Hr' & Hd);
    destruct (strongly_sorted_pair _ _ r r' Hsorted Hr Hr') as [-> | [H | H]];
    unfold run_before in *; try lia;
    specialize (Hwf _ Hr); specialize (Hwf _ Hr'); simpl in *; lia.
Qed.

Lemma sorted_adjacent_between (l1 l2 : list Z) a b x :
  StronglySorted Z.lt (l1 ++ a :: b :: l2) → a < x < b →
  x ∉ l1 ++ a :: b :: l2.
Proof.
  intros Hs Hx Hin.
  apply StronglySorted_app in Hs as (Hl1 & _ & Hs).
  apply StronglySorted_cons in Hs as [Ha Hs].
  apply StronglySorted_cons in Hs as [Hb _].
  rewrite Forall_forall in Ha, Hb.
  apply elem_of_app in Hin as [Hin | Hin].
  - specialize (Hl1 x a Hin). rewrite elem_of_cons in Hl1.
    specialize (Hl1 (or_introl eq_refl)). lia.
  - apply elem_of_cons in Hin as [-> | Hin]; [lia|].
    apply elem_of_cons in Hin as [-> | Hin]; [lia|].
    specialize (Hb x Hin). lia.
Qed.

(** For two neighbouring missing days [a], [b], a range starts at [b]
    exactly when [b] is more than one day after [a]. *)
Lemma group_ranges_new_run (l1 l2 : list Z) a b :
  StronglySorted Z.lt (l1 ++ a :: b :: l2) →
  (∃ range_end, (b, range_end) ∈ group_ranges (l1 ++ a :: b :: l2))
  ↔ 1 < b - a.
Proof.
  intros Hs. set (missing := l1 ++ a :: b :: l2) in *.
  assert (a ∈ missing) as Ha by (unfold missing; set_solver).
  assert (b ∈ missing) as Hb by (unfold missing; set_solver).
  assert (a < b) as Hab.
  { apply StronglySorted_app in Hs as (_ & _ & Hs).
    apply StronglySorted_cons in Hs as [Hall _].
    by apply Forall_cons in Hall as [? _]. }
  split.
  - intros [e He].
    destruct (group_ranges_maximal missing _ Hs He) as [Hpred _].
    simpl in Hpred.
    destruct (decide (b - 1 = a)) as [Heq|]; [|lia].
    rewrite Heq in Hpred. done.
  - intros Hgap.
    pose proof Hb as Hb'.
    rewrite <- (group_ranges_days missing) in Hb'.
    apply elem_of_concat_range_days in Hb' as ([s e] & Hr & Hd).
    simpl in Hd. destruct (decide (s = b)) as [-> | Hne]; [eauto|].
    exfalso. apply (sorted_adjacent_between l1 l2 a b (b - 1) Hs); [lia|].
    fold missing. rewrite <- (group_ranges_days missing).
    apply elem_of_concat_range_days. exists (s, e). simpl. split; [done|lia].
Qed.

(** The worked example of the specification: window 2024-12-01 (ordinal
    739221) to 2024-12-10, coverage on the 1st, 2nd, 5th, 6th and 7th. *)
Example gap_example :
  let covered : gset Z := {[739221; 739222; 739225; 739226; 739227]} in
  missing_dates 739221 739230 covered
    = [739223; 739224; 739228; 739229; 739230]
  ∧ group_ranges (missing_dates 739221 739230 covered)
    = [(739223, 739224); (739228, 739230)].
Proof. vm_compute. done. Qed.

(** C3. For every coverage calendar and window, the gap analyzer maps each
    store to the sorted list of the window's days absent from the store's
    coverage; grouping that list yields well-formed ranges that read back
    as the missing list itself, are pairwise apart by more than one day
    (hence disjoint), cannot be extended by a missing day on either side,
    and start a new range exactly at a missing day more than one day after
    its predecessor. *)
Theorem gap_analysis_exact (dates_by_store : gmap Z (gset Z))
    (from_date to_date store_id : Z) :
  analyze_date_gaps dates_by_store from_date to_date !! store_id
    = missing_dates from_date to_date <$> dates_by_store !! store_id
  ∧ ∀ store_dates : gset Z,
      let missing := missing_dates from_date to_date store_dates in
      let ranges := group_ranges missing in
      (∀ d, d ∈ missing ↔ from_date ≤ d ≤ to_date ∧ d ∉ store_dates)
      ∧ StronglySorted Z.lt missing
      ∧ concat (range_days <$> ranges) = missing
      ∧ Forall (λ r, r.1 ≤ r.2) ranges
      ∧ StronglySorted run_before ranges
      ∧ (∀ r, r ∈ ranges → ((r.1 - 1) ∉ missing) ∧ ((r.2 + 1) ∉ missing))
      ∧ (∀ l1 l2 a b, missing = l1 ++ a :: b :: l2 →
           (∃ range_end, (b, range_end) ∈ ranges) ↔ 1 < b - a).
Proof.
  split; [apply lookup_fmap|].
  intros store_dates missing ranges.
  pose proof (sorted_ascending (all_dates from_date to_date ∖ store_dates))
    as Hs.
  fold (missing_dates from_date to_date store_dates) in Hs. fold missing in Hs.
  split_and!.
  - intros d. apply elem_of_missing_dates.
  - done.
  - apply group_ranges_days.
  - by apply group_ranges_wf.
  - by apply group_ranges_sorted.
  - intros r Hr. by apply (group_ranges_maximal missing r Hs).
  - intros l1 l2 a b Heq. subst ranges. revert Hs. rewrite Heq. intros Hs.
    by apply group_ranges_new_run.
Qed.

End Gap.

(** ** Adjustment scoring: [calculate_store_adjustment] and the adjustment
    table of [generate_csv2_report], with the arithmetic taken exactly

    Ranks, weights and factors are rationals here and no operation rounds.
    The loop as it runs, in binary64, is [ScorerBinary64] below. *)

Module Scorer.

Local Open Scope Qc_scope.

(** The [weights] dictionary, in its insertion order. *)
Definition weights : list (string * Qc) :=
  [ ("Location", Q2Qc (1 # 100));
    ("Age", Q2Qc (1 # 100));
    ("Accessibility", Q2Qc (5 # 1000));
    ("VPD", Q2Qc (5 # 1000));
    ("Visibility & Signage", Q2Qc (5 # 1000));
    ("Brand", Q2Qc (1 # 100));
    ("Quality", Q2Qc (1 # 100));
    ("Size", Q2Qc (1 # 100)) ]%string.

(** [rankings.get(category, 5)] *)
Definition get_rank (rankings : gmap string Z) (category : string) : Z :=
  default 5%Z (rankings !! category).

(** The body of [for category, weight in weights.items()]. *)
Definition add_category (store_rankings subject_rankings : gmap string Z)
    (total_adj : Qc) (item : string * Qc) : Qc :=
  let '(category, weight) := item in
  let comp_rank := get_rank store_rankings category in
  let subj_rank := get_rank subject_rankings category in
  let delta := Z2Qc (comp_rank - subj_rank) * weight in
  total_adj + delta.

(** [adjustment_factors] is a dictionary read only through [.values()];
    it is kept as its items in insertion order. *)
Definition calculate_store_adjustment
    (store_rankings subject_rankings : gmap string Z)
    (adjustment_factors : list (string * Qc)) : Qc :=
  let total_adj :=
    fold_left (add_category store_rankings subject_rankings) weights 0 in
  fold_left (λ total factor_value, total + factor_value)
            (adjustment_factors.*2) total_adj.

(** The adjustment table at the head of [generate_csv2_report]:
    [selected_stores] is given by its store ids; [selected_stores[0]] on an
    empty list raises, which is [None] here. *)
Definition store_adjustments (selected_stores : list Z)
    (rankings : gmap Z (gmap string Z))
    (adjustment_factors : list (string * Qc)) : option (gmap Z Qc) :=
  match selected_stores with
  | [] => None
  | subject_store_id :: _ =>
      let subject_rankings := default ∅ (rankings !! subject_store_id) in
      Some (fold_left
              (λ (adjustments : gmap Z Qc) store_id,
                 if decide (store_id = subject_store_id)
                 then <[store_id := 0]> adjustments
                 else
                   let store_rankings := default ∅ (rankings !! store_id) in
                   <[store_id :=
                       calculate_store_adjustment store_rankings
                         subject_rankings adjustment_factors]> adjustments)
              selected_stores ∅)
  end.

(** *** The formula of the specification *)

Definition sum_Qc (l : list Qc) : Qc := foldr Qcplus 0 l.

(** The weighted rank difference of one named category. *)
Definition term (weight : Qc) (category : string)
    (comparator subject : gmap string Z) : Qc :=
  weight * Z2Qc (get_rank comparator category - get_rank subject category).

(** Sum over the eight fixed categories of weight times rank difference,
    plus the flat factors. *)
Definition adjustment_formula (comparator subject : gmap string Z)
    (factors : list (string * Qc)) : Qc :=
  term (Q2Qc (1 # 100)) "Location" comparator subject
  + term (Q2Qc (1 # 100)) "Age" comparator subject
  + term (Q2Qc (5 # 1000)) "Accessibility" comparator subject
  + term (Q2Qc (5 # 1000)) "VPD" comparator subject
  + term (Q2Qc (5 # 1000)) "Visibility & Signage" comparator subject
  + term (Q2Qc (1 # 100)) "Brand" comparator subject
  + term (Q2Qc (1 # 100)) "Quality" comparator subject
  + term (Q2Qc (1 # 100)) "Size" comparator subject
  + sum_Qc (factors.*2).

(** The rankings of the worked example. *)
Definition all_five : gmap string Z :=
  list_to_map
    [ ("Location", 5%Z); ("Age", 5%Z); ("Accessibility", 5%Z); ("VPD", 5%Z);
      ("Visibility & Signage", 5%Z); ("Brand", 5%Z); ("Quality", 5%Z);
      ("Size", 5%Z) ]%string.

Definition example_subject : gmap string Z := <["Size"%string := 7%Z]> all_five.

Definition example_comparator : gmap string Z :=
  <["Brand"%string := 8%Z]> (<["Size"%string := 9%Z]> all_five).

Definition example_factors : list (string * Qc) :=
  [ ("CaptiveMarketPremium"%string, Q2Qc (2 # 100)) ].

(** *** Proofs *)

Lemma fold_left_add_factors (values : list Qc) (total : Qc) :
  fold_left (λ total factor_value, total + factor_value) values total
  = total + sum_Qc values.
Proof.
  revert total. induction values as [|v values IH]; intros total; simpl.
  - ring.
  - rewrite IH. ring.
Qed.

Lemma calculate_store_adjustment_formula comparator subject factors :
  calculate_store_adjustment comparator subject factors
  = adjustment_formula comparator subject factors.
Proof.
  unfold calculate_store_adjustment, adjustment_formula, term, weights.
  rewrite fold_left_add_factors. cbn [fold_left add_category]. ring.
Qed.

End Scorer.

(** ** The scorer as it runs: [calculate_store_adjustment] in binary64 *)

Module ScorerBinary64.

Import Scorer.

Local Open Scope float_scope.

(** The [weights] dictionary, in its insertion order; each literal is the
    nearest binary64 value, as in Python. *)
Definition weights : list (string * float) :=
  [ ("Location", 0.01);
    ("Age", 0.01);
    ("Accessibility", 0.005);
    ("VPD", 0.005);
    ("Visibility & Signage", 0.005);
    ("Brand", 0.01);
    ("Quality", 0.01);
    ("Size", 0.01) ]%string.

(** The conversion of the int operand of [int * float]: the nearest
    binary64 value, ties to even; [None] is the OverflowError of an int
    beyond the range of a float. *)
Definition float_of_int (z : Z) : option float :=
  let f := SF2Prim (binary_normalize prec emax z 0 false) in
  if is_infinity f then None else Some f.

(** The body of [for category, weight in weights.items()]; [None] is an
    exception raised in an earlier iteration or in this one. *)
Definition add_category (store_rankings subject_rankings : gmap string Z)
    (total_adj : option float) (item : string * float) : option float :=
  let '(category, weight) := item in
  total_adj ← total_adj;
  let comp_rank := get_rank store_rankings category in
  let subj_rank := get_rank subject_rankings category in
  rank_diff ← float_of_int (comp_rank - subj_rank);
  let delta := rank_diff * weight in
  Some (total_adj + delta).

(** [adjustment_factors] is a dictionary read only through [.values()];
    it is kept as its items in insertion order. *)
Definition calculate_store_adjustment
    (store_rankings subject_rankings : gmap string Z)
    (adjustment_factors : list (string * float)) : option float :=
  total_adj ←
    fold_left (add_category store_rankings subject_rankings) weights (Some 0);
  Some (fold_left (λ total_adj factor_value, total_adj + factor_value)
                  (adjustment_factors.*2) total_adj).

(** The adjustment table at the head of [generate_csv2_report]:
    [selected_stores] is given by its store ids; [None] is an exception,
    of [selected_stores[0]] on an empty list or of the scorer. *)
Definition store_adjustments (selected_stores : list Z)
    (rankings : gmap Z (gmap string Z))
    (adjustment_factors : list (string * float)) : option (gmap Z float) :=
  match selected_stores with
  | [] => None
  | subject_store_id :: _ =>
      let subject_rankings := default ∅ (rankings !! subject_store_id) in
      fold_left
        (λ (adjustments : option (gmap Z float)) store_id,
           adjustments ← adjustments;
           if decide (store_id = subject_store_id)
           then Some (<[store_id := 0]> adjustments)
           else
             let store_rankings := default ∅ (rankings !! store_id) in
             adjustment ← calculate_store_adjustment store_rankings
                            subject_rankings adjustment_factors;
             Some (<[store_id := adjustment]> adjustments))
        selected_stores (Some ∅)
  end.

(** *** The formula of the specification, evaluated in binary64 *)

(** The weighted rank difference of one named category. *)
Definition term (weight : float) (category : string)
    (comparator subject : gmap string Z) : option float :=
  rank_diff ←
    float_of_int (get_rank comparator category - get_rank subject category);
  Some (rank_diff * weight).

(** The running sum of a list of floats, from a starting value. *)
Definition accumulate (start : float) (values : list float) : float :=
  fold_left PrimFloat.add values start.

(** The eight terms added to 0.0 one after the other, then the flat
    factors in their order. *)
Definition adjustment_formula (comparator subject : gmap string Z)
    (factors : list (string * float)) : option float :=
  location ← term 0.01 "Location" comparator subject;
  age ← term 0.01 "Age" comparator subject;
  accessibility ← term 0.005 "Accessibility" comparator subject;
  vpd ← term 0.005 "VPD" comparator subject;
  visibility ← term 0.005 "Visibility & Signage" comparator subject;
  brand ← term 0.01 "Brand" comparator subject;
  quality ← term 0.01 "Quality" comparator subject;
  size ← term 0.01 "Size" comparator subject;
  Some (accumulate
          (0 + location + age + accessibility + vpd + visibility + brand
           + quality + size)
          (factors.*2)).

Definition all_ten : gmap string Z := (λ _, 10%Z) <$> all_five.

Definition all_one : gmap string Z := (λ _, 1%Z) <$> all_five.

Definition example_factors : list (string * float) :=
  [ ("CaptiveMarketPremium"%string, 0.02) ].

(** A subject with every rank at 5 and a comparator one rank higher on
    Location. *)
Definition location_six : gmap string Z := <["Location"%string := 6%Z]> all_five.

Definition two_factors : list (string * float) :=
  [ ("Captive Market Premium"%string, 0.1); ("Loss to Lease"%string, 0.2) ].

(** *** Proofs *)

(** Whether a call returned a given float, by the comparison of floats. *)
Definition returns (expected : float) (result : option float) : bool :=
  match result with
  | Some value => PrimFloat.eqb value expected
  | None => false
  end.

Lemma float_of_int_0 : float_of_int 0 = Some 0.
Proof. by vm_compute. Qed.

(** The difference of two ranks from 1 to 10 is converted: it does not
    overflow. *)
Lemma float_of_int_small (d : Z) :
  (-9 ≤ d ≤ 9)%Z → is_Some (float_of_int d).
Proof.
  intros Hd.
  assert (d ∈ seqZ (-9) 19) as Hin by (apply elem_of_seqZ; lia).
  vm_compute seqZ in Hin.
  repeat (apply elem_of_cons in Hin as [->|Hin]; [vm_compute; by eexists|]).
  by apply elem_of_nil in Hin.
Qed.

(** A step of proof repeated for the eight categories, in their order. *)
Ltac do_categories step :=
  step "Location"%string; step "Age"%string; step "Accessibility"%string;
  step "VPD"%string; step "Visibility & Signage"%string;
  step "Brand"%string; step "Quality"%string; step "Size"%string.

Lemma accumulation_formula comparator subject factors :
  calculate_store_adjustment comparator subject factors
  = adjustment_formula comparator subject factors.
Proof.
  unfold calculate_store_adjustment, adjustment_formula, term, weights,
    accumulate.
  cbn [fold_left add_category mbind option_bind].
  by do_categories
    ltac:(fun category =>
            destruct (float_of_int (get_rank comparator category
                                    - get_rank subject category)) as [?|];
            simpl; [|done]).
Qed.

Lemma get_rank_range (rankings : gmap string Z) (category : string) :
  (∀ c v, rankings !! c = Some v → (1 ≤ v ≤ 10)%Z) →
  (1 ≤ get_rank rankings category ≤ 10)%Z.
Proof.
  intros Hvalid. unfold get_rank.
  destruct (rankings !! category) as [v|] eqn:Hc; simpl; [by eapply Hvalid|lia].
Qed.

Lemma term_is_Some weight category comparator subject :
  (∀ c v, comparator !! c = Some v → (1 ≤ v ≤ 10)%Z) →
  (∀ c v, subject !! c = Some v → (1 ≤ v ≤ 10)%Z) →
  is_Some (term weight category comparator subject).
Proof.
  intros Hc Hs. unfold term.
  pose proof (get_rank_range comparator category Hc).
  pose proof (get_rank_range subject category Hs).
  destruct (float_of_int_small
              (get_rank comparator category - get_rank subject category))
    as [d ->]; [lia|]. by eexists.
Qed.

(** *** How far rounding takes the result from the exact sum *)

(** The rational a float stands for; [None] for an infinity and for a
    NaN. *)
Definition value (x : float) : option Qc :=
  match Prim2SF x with
  | S754_zero _ => Some 0%Qc
  | S754_finite s m e =>
      let magnitude :=
        if bool_decide (0 ≤ e)%Z then inject_Z (Z.pos m * 2 ^ e)
        else Z.pos m # Z.to_pos (2 ^ (- e)) in
      Some (Q2Qc (if s then Qopp magnitude else magnitude))
  | _ => None
  end.

Lemma value_examples :
  value 0.5 = Some (Q2Qc (1 # 2)) ∧ value (-3) = Some (Q2Qc (-3 # 1))
  ∧ value 0 = Some 0%Qc ∧ value infinity = None ∧ value nan = None.
Proof.
  split_and!; try done; unfold value; vm_compute Prim2SF; cbn beta iota;
    f_equal; apply Qc_is_canon; by vm_compute.
Qed.

(** The differences of two ranks from 1 to 10. *)
Definition rank_diffs : list Z := seqZ (-9) 19.

(** The running gmap Z (list float) the loop can hold for such ranks are kept in a
    table, by the exact sum they stand for, counted in units of 1/200. *)
Definition add_if_new (t : float) (l : list float) : list float :=
  if existsb (Leibniz.eqb t) l then l else t :: l.

Definition insert_total (n : Z) (t : float) (acc : gmap Z (list float)) : gmap Z (list float) :=
  <[n := add_if_new t (default [] (acc !! n))]> acc.

Definition holds (S : gmap Z (list float)) (n : Z) (t : float) : Prop :=
  ∃ ts, S !! n = Some ts ∧ t ∈ ts.

(** The totals after one more category, of a weight that is [units]/200
    exactly. *)
Definition reach_step (weight : float) (units : Z) (S : gmap Z (list float)) : gmap Z (list float) :=
  fold_left
    (λ acc '(n, ts),
       fold_left
         (λ acc t,
            fold_left
              (λ acc d,
                 match float_of_int d with
                 | Some rank_diff =>
                     insert_total (n + units * d) (t + rank_diff * weight) acc
                 | None => acc
                 end)
              rank_diffs acc)
         ts acc)
    (map_to_list S) ∅.

(** The totals after the eight categories, Location first. *)
Definition reachable : gmap Z (list float) :=
  reach_step 0.01 2
    (reach_step 0.01 2
       (reach_step 0.01 2
          (reach_step 0.005 1
             (reach_step 0.005 1
                (reach_step 0.005 1
                   (reach_step 0.01 2
                      (reach_step 0.01 2 {[ 0%Z := [0] ]}))))))).

(** 2^-52, about 2.2e-16. *)
Definition rounding_bound : Qc := Q2Qc (1 # 2 ^ 52).

Definition within_bound (n : Z) (t : float) : bool :=
  match value t with
  | Some q =>
      bool_decide (Q2Qc (n # 200) - rounding_bound ≤ q
                   ∧ q ≤ Q2Qc (n # 200) + rounding_bound)%Qc
  | None => false
  end.

Definition all_within (S : gmap Z (list float)) : bool :=
  forallb (λ '(n, ts), forallb (within_bound n) ts) (map_to_list S).

Lemma add_if_new_elem t l : t ∈ add_if_new t l.
Proof.
  unfold add_if_new. destruct (existsb (Leibniz.eqb t) l) eqn:Hold.
  - apply existsb_exists in Hold as (t' & Hin & Heq).
    apply Leibniz.eqb_spec in Heq as ->. by apply list_elem_of_In.
  - by left.
Qed.

Lemma add_if_new_mono t t' l : t' ∈ l → t' ∈ add_if_new t l.
Proof.
  intros Hin. unfold add_if_new.
  destruct (existsb (Leibniz.eqb t) l); [done|by right].
Qed.

Lemma insert_total_holds n t acc : holds (insert_total n t acc) n t.
Proof.
  eexists. split; [apply lookup_insert_eq|apply add_if_new_elem].
Qed.

Lemma insert_total_mono n t acc n' t' :
  holds acc n' t' → holds (insert_total n t acc) n' t'.
Proof.
  intros (ts & Hts & Hin). unfold holds, insert_total.
  destruct (decide (n = n')) as [->|Hne].
  - eexists. split; [apply lookup_insert_eq|].
    rewrite Hts. by apply add_if_new_mono.
  - exists ts. by rewrite lookup_insert_ne.
Qed.

Lemma fold_left_keeps {A B} (f : A → B → A) (P : A → Prop) l a :
  (∀ a b, P a → P (f a b)) → P a → P (fold_left f l a).
Proof.
  intros Hf. revert a. induction l as [|b l IH]; intros a Ha; [done|].
  by apply IH, Hf.
Qed.

Lemma fold_left_reaches {A B} (f : A → B → A) (P : A → Prop) l x a :
  (∀ a b, P a → P (f a b)) → (∀ a, P (f a x)) → x ∈ l →
  P (fold_left f l a).
Proof.
  intros Hf Hx. revert a. induction l as [|b l IH]; intros a Hin.
  - by apply elem_of_nil in Hin.
  - apply elem_of_cons in Hin as [<-|Hin]; simpl.
    + by apply fold_left_keeps.
    + by apply IH.
Qed.

Lemma reach_step_sound weight units S n t d rank_diff :
  holds S n t → d ∈ rank_diffs → float_of_int d = Some rank_diff →
  holds (reach_step weight units S) (n + units * d) (t + rank_diff * weight).
Proof.
  intros (ts & Hts & Hin) Hd Hfloat. unfold reach_step.
  set (P := λ acc : gmap Z (list float),
              holds acc (n + units * d) (t + rank_diff * weight)).
  assert (∀ acc n0 t0 d0, P acc →
            P match float_of_int d0 with
              | Some rank_diff0 =>
                  insert_total (n0 + units * d0)%Z (t0 + rank_diff0 * weight)
                    acc
              | None => acc
              end) as Hinner.
  { intros acc n0 t0 d0 Hacc. destruct (float_of_int d0); [|done].
    by apply insert_total_mono. }
  apply (fold_left_reaches _ P _ (n, ts)).
  - intros acc [n0 ts0] Hacc. apply (fold_left_keeps _ P); [|done].
    intros acc' t0 Hacc'. apply (fold_left_keeps _ P); [|done].
    intros acc'' d0 Hacc''. by apply Hinner.
  - intros acc. apply (fold_left_reaches _ P _ t); [| |done].
    + intros acc' t0 Hacc'. apply (fold_left_keeps _ P); [|done].
      intros acc'' d0 Hacc''. by apply Hinner.
    + intros acc'. apply (fold_left_reaches _ P _ d); [| |done].
      * intros acc'' d0 Hacc''. by apply Hinner.
      * intros acc''. rewrite Hfloat. apply insert_total_holds.
  - by apply elem_of_map_to_list.
Qed.

Lemma reachable_within : all_within reachable = true.
Proof. by vm_compute. Qed.

Lemma holds_within S n t :
  all_within S = true → holds S n t → within_bound n t = true.
Proof.
  intros Hall (ts & Hts & Hin). unfold all_within in Hall.
  rewrite forallb_forall in Hall.
  apply elem_of_map_to_list, list_elem_of_In in Hts.
  specialize (Hall _ Hts). cbn beta iota in Hall.
  rewrite forallb_forall in Hall. by apply Hall, list_elem_of_In.
Qed.

Lemma rank_diff_in (comparator subject : gmap string Z) category :
  (∀ c v, comparator !! c = Some v → (1 ≤ v ≤ 10)%Z) →
  (∀ c v, subject !! c = Some v → (1 ≤ v ≤ 10)%Z) →
  (get_rank comparator category - get_rank subject category)%Z ∈ rank_diffs.
Proof.
  intros Hc Hs. apply elem_of_seqZ.
  pose proof (get_rank_range comparator category Hc).
  pose proof (get_rank_range subject category Hs). lia.
Qed.

(** The exact sum, in units of 1/200. *)
Definition exact_units (comparator subject : gmap string Z) : Z :=
  let d category :=
    (get_rank comparator category - get_rank subject category)%Z in
  (0 + 2 * d "Location" + 2 * d "Age" + 1 * d "Accessibility" + 1 * d "VPD"
   + 1 * d "Visibility & Signage" + 2 * d "Brand" + 2 * d "Quality"
   + 2 * d "Size")%Z.

Lemma exact_adjustment_units comparator subject :
  Scorer.calculate_store_adjustment comparator subject []
  = Q2Qc (exact_units comparator subject # 200).
Proof.
  rewrite Scorer.calculate_store_adjustment_formula.
  unfold Scorer.adjustment_formula, Scorer.term, sum_Qc, exact_units, Z2Qc.
  cbn [fmap list_fmap foldr].
  apply Qc_is_canon. unfold Qcplus, Qcmult. cbn [this Q2Qc].
  rewrite !Qred_correct.
  rewrite (Qmake_Qdiv _ 200), !inject_Z_plus, !inject_Z_mult.
  field.
Qed.

Lemma rank_part_reachable comparator subject :
  (∀ c v, comparator !! c = Some v → (1 ≤ v ≤ 10)%Z) →
  (∀ c v, subject !! c = Some v → (1 ≤ v ≤ 10)%Z) →
  ∃ total,
    calculate_store_adjustment comparator subject [] = Some total
    ∧ holds reachable (exact_units comparator subject) total.
Proof.
  intros Hc Hs.
  rewrite accumulation_formula. unfold adjustment_formula, term.
  do_categories
    ltac:(fun category =>
            let f := fresh "f" in
            let Hf := fresh "Hf" in
            destruct (float_of_int_small
                        (get_rank comparator category
                         - get_rank subject category)) as [f Hf];
            [pose proof (get_rank_range comparator category Hc);
             pose proof (get_rank_range subject category Hs); lia|];
            rewrite Hf; cbn [mbind option_bind]).
  eexists. split; [done|].
  unfold accumulate, reachable, exact_units. cbn [fmap list_fmap fold_left].
  repeat (apply reach_step_sound; [|by apply rank_diff_in|done]).
  exists [0]. split; [apply lookup_singleton_eq|by left].
Qed.

(** For ranks from 1 to 10 and no flat factor, the value returned is
    within 2^-52 of the exact sum. *)
Lemma rank_part_rounding comparator subject :
  (∀ c v, comparator !! c = Some v → (1 ≤ v ≤ 10)%Z) →
  (∀ c v, subject !! c = Some v → (1 ≤ v ≤ 10)%Z) →
  ∃ total q,
    calculate_store_adjustment comparator subject [] = Some total
    ∧ value total = Some q
    ∧ (Scorer.adjustment_formula comparator subject [] - rounding_bound ≤ q
       ∧ q ≤ Scorer.adjustment_formula comparator subject []
             + rounding_bound)%Qc.
Proof.
  intros Hc Hs.
  destruct (rank_part_reachable comparator subject Hc Hs)
    as (total & Hcode & Hholds).
  pose proof (holds_within _ _ _ reachable_within Hholds) as Hbound.
  unfold within_bound in Hbound.
  destruct (value total) as [q|] eqn:Hvalue; [|done].
  apply bool_decide_eq_true in Hbound.
  exists total, q.
  by rewrite <- Scorer.calculate_store_adjustment_formula,
       exact_adjustment_units.
Qed.

(** With ranks from 1 to 10 no conversion overflows: a value is
    returned. *)
Lemma calculate_store_adjustment_returns comparator subject factors :
  (∀ c v, comparator !! c = Some v → (1 ≤ v ≤ 10)%Z) →
  (∀ c v, subject !! c = Some v → (1 ≤ v ≤ 10)%Z) →
  is_Some (calculate_store_adjustment comparator subject factors).
Proof.
  intros Hc Hs.
  rewrite accumulation_formula. unfold adjustment_formula.
  do_categories
    ltac:(fun category =>
            match goal with
            | |- context [term ?w category comparator subject] =>
                destruct (term_is_Some w category comparator subject Hc Hs)
                  as [? ->]; simpl
            end).
  by eexists.
Qed.

(** C4, amended. The computed adjustment is the binary64 value obtained
    by adding to 0.0, one after the other, the eight products of the rank
    difference (comparator minus subject, a missing rank counting as 5)
    and the weight, in the order of the weights, and then the flat factors
    in their order, each operation rounded to nearest; it is returned for
    all ranks from 1 to 10, and then, without flat factors, it is within
    2^-52 of the exact sum of the eight products; on the worked example it
    is exactly 0.07. *)
Theorem adjustment_accumulated_in_binary64 :
  (∀ (comparator subject : gmap string Z) (factors : list (string * float)),
     calculate_store_adjustment comparator subject factors
     = adjustment_formula comparator subject factors)
  ∧ (∀ (rankings : gmap string Z) (category : string),
       rankings !! category = None → get_rank rankings category = 5%Z)
  ∧ (∀ (comparator subject : gmap string Z) (factors : list (string * float)),
       (∀ c v, comparator !! c = Some v → (1 ≤ v ≤ 10)%Z) →
       (∀ c v, subject !! c = Some v → (1 ≤ v ≤ 10)%Z) →
       is_Some (calculate_store_adjustment comparator subject factors))
  ∧ (∀ (comparator subject : gmap string Z),
       (∀ c v, comparator !! c = Some v → (1 ≤ v ≤ 10)%Z) →
       (∀ c v, subject !! c = Some v → (1 ≤ v ≤ 10)%Z) →
       ∃ total q,
         calculate_store_adjustment comparator subject [] = Some total
         ∧ value total = Some q
         ∧ (Scorer.adjustment_formula comparator subject []
            - rounding_bound ≤ q
            ∧ q ≤ Scorer.adjustment_formula comparator subject []
                  + rounding_bound)%Qc)
  ∧ calculate_store_adjustment example_comparator example_subject
      example_factors = Some 0.07.
Proof.
  split_and!.
  - apply accumulation_formula.
  - intros rankings category Hnone. unfold get_rank. by rewrite Hnone.
  - apply calculate_store_adjustment_returns.
  - apply rank_part_rounding.
  - by vm_compute.
Qed.

Lemma adjustment_accumulated_in_binary64_witness :
  is_Some (calculate_store_adjustment all_five all_five example_factors).
Proof.
  apply (proj1 (proj2 (proj2 adjustment_accumulated_in_binary64)));
    intros c v Hc%elem_of_list_to_map_2;
    repeat (apply elem_of_cons in Hc as [[= -> ->]|Hc]; [lia|]);
    by apply elem_of_nil in Hc.
Defined.

(** C4 as stated fails in the last digits: with every comparator rank at
    10 and every subject rank at 1 the exact sum is 0.585, and the code
    returns another float than the nearest one to it; with one rank step
    on Location and the factors 0.1 and 0.2 the code returns 0.31, while
    the sum of the terms plus the sum of the factors, in binary64, is
    another float. *)
Lemma adjustment_not_exact_sum :
  (calculate_store_adjustment all_ten all_one []
     = Some 0.58499999999999985
   ∧ calculate_store_adjustment all_ten all_one [] ≠ Some 0.585)
  ∧ (calculate_store_adjustment location_six all_five two_factors = Some 0.31
     ∧ (0 + 1 * 0.01) + (0.1 + 0.2) ≠ 0.31).
Proof.
  split_and!.
  - by vm_compute.
  - intros Heq. apply (f_equal (returns 0.585)) in Heq.
    vm_compute in Heq. discriminate.
  - by vm_compute.
  - intros Heq. apply (f_equal (λ x, PrimFloat.eqb x 0.31)) in Heq.
    vm_compute in Heq. discriminate.
Qed.

(** With equal rankings every category adds 0.0: what is left is the
    running sum of the flat factors. *)
Lemma self_adjustment_is_factor_sum (r : gmap string Z)
    (factors : list (string * float)) :
  calculate_store_adjustment r r factors = Some (accumulate 0 (factors.*2)).
Proof.
  rewrite accumulation_formula.
  unfold adjustment_formula, term. rewrite !Z.sub_diag, float_of_int_0.
  cbn [mbind option_bind]. f_equal.
Qed.

(** C5 as stated fails: with one flat factor of 0.02 the scorer returns
    0.02, not 0, for a store compared to itself. *)
Lemma self_adjustment_not_zero :
  calculate_store_adjustment all_five all_five example_factors ≠ Some 0.
Proof.
  intros Heq. apply (f_equal (returns 0)) in Heq.
  vm_compute in Heq. discriminate.
Qed.

Lemma store_adjustments_fold_subject (subject : Z)
    (rankings : gmap Z (gmap string Z)) (subject_rankings : gmap string Z)
    (factors : list (string * float)) (stores : list Z)
    (adjustments : option (gmap Z float)) (table : gmap Z float) :
  (∀ m, adjustments = Some m → m !! subject = Some 0) →
  fold_left
    (λ (adjustments : option (gmap Z float)) store_id,
       adjustments ← adjustments;
       if decide (store_id = subject)
       then Some (<[store_id := 0]> adjustments)
       else
         let store_rankings := default ∅ (rankings !! store_id) in
         adjustment ← calculate_store_adjustment store_rankings
                        subject_rankings factors;
         Some (<[store_id := adjustment]> adjustments))
    stores adjustments = Some table →
  table !! subject = Some 0.
Proof.
  revert adjustments.
  induction stores as [|store_id stores IH]; intros adjustments Hsub;
    simpl; [by apply Hsub|].
  apply IH. intros m. destruct adjustments as [m0|]; simpl; [|done].
  case_decide as Heq.
  - intros [= <-]. subst. apply lookup_insert_eq.
  - destruct (calculate_store_adjustment _ _ _); simpl; [|done].
    intros [= <-]. rewrite lookup_insert_ne by done. by apply Hsub.
Qed.

Lemma store_adjustments_fold_Some (subject : Z)
    (rankings : gmap Z (gmap string Z)) (subject_rankings : gmap string Z)
    (factors : list (string * float)) (stores : list Z)
    (adjustments : gmap Z float) :
  (∀ sid, sid ∈ stores → sid ≠ subject →
          is_Some (calculate_store_adjustment (default ∅ (rankings !! sid))
                     subject_rankings factors)) →
  is_Some
    (fold_left
       (λ (adjustments : option (gmap Z float)) store_id,
          adjustments ← adjustments;
          if decide (store_id = subject)
          then Some (<[store_id := 0]> adjustments)
          else
            let store_rankings := default ∅ (rankings !! store_id) in
            adjustment ← calculate_store_adjustment store_rankings
                           subject_rankings factors;
            Some (<[store_id := adjustment]> adjustments))
       stores (Some adjustments)).
Proof.
  revert adjustments.
  induction stores as [|store_id stores IH]; intros adjustments Hall;
    simpl; [by eexists|].
  case_decide as Heq.
  - apply IH. intros sid Hin. apply Hall. by right.
  - destruct (Hall store_id) as [adj ->]; [by left|done|]. simpl.
    apply IH. intros sid Hin. apply Hall. by right.
Qed.

(** C5, amended. The scorer applied to a store and itself returns the
    running binary64 sum of the flat factors from 0.0, whatever the
    rankings, and 0.0 when there is no factor; the subject's adjustment in
    the report is 0.0 because [generate_csv2_report] assigns it without
    calling the scorer, in every table it builds, and it builds one
    whenever the stored ranks are from 1 to 10. *)
Theorem subject_adjustment_zero_by_report :
  (∀ (r : gmap string Z) (factors : list (string * float)),
     calculate_store_adjustment r r factors
     = Some (accumulate 0 (factors.*2)))
  ∧ (∀ (r : gmap string Z), calculate_store_adjustment r r [] = Some 0)
  ∧ (∀ (subject : Z) (others : list Z) (rankings : gmap Z (gmap string Z))
       (factors : list (string * float)),
       (∀ adjustments,
          store_adjustments (subject :: others) rankings factors
            = Some adjustments →
          adjustments !! subject = Some 0)
       ∧ ((∀ sid r c v, rankings !! sid = Some r → r !! c = Some v →
                        (1 ≤ v ≤ 10)%Z) →
          is_Some (store_adjustments (subject :: others) rankings factors))).
Proof.
  split_and!.
  - apply self_adjustment_is_factor_sum.
  - intros r. by rewrite self_adjustment_is_factor_sum.
  - intros subject others rankings factors. split.
    + intros adjustments. unfold store_adjustments. cbn [fold_left mbind option_bind].
      rewrite decide_True by done.
      apply store_adjustments_fold_subject.
      intros m [= <-]. apply lookup_insert_eq.
    + intros Hvalid. unfold store_adjustments.
      cbn [fold_left mbind option_bind]. rewrite decide_True by done.
      apply store_adjustments_fold_Some. intros sid _ _.
      assert (∀ sid' c v, default ∅ (rankings !! sid') !! c = Some v →
                          (1 ≤ v ≤ 10)%Z) as Hdefault.
      { intros sid' c v. destruct (rankings !! sid') as [r|] eqn:Hr; simpl.
        - by apply (Hvalid sid' r).
        - by rewrite lookup_empty. }
      apply calculate_store_adjustment_returns; apply Hdefault.
Qed.

Lemma subject_adjustment_zero_by_report_witness :
  is_Some (store_adjustments [1; 2]%Z ∅ example_factors).
Proof.
  apply subject_adjustment_zero_by_report.
  intros sid r c v Hr. by rewrite lookup_empty in Hr.
Defined.

End ScorerBinary64.

(** ** Rate records: the database reader, the two adapters and the
    combination step of [main] *)

Module Records.

Local Open Scope Qc_scope.

Inductive source : Type := Database | API.

#[global] Instance source_eq_dec : EqDecision source.
Proof. solve_decision. Defined.

(** The dictionaries appended to [records] by both adapters. The fields
    copied through unchanged and read by no property below (address, city,
    feature flags, dimensions, promo text) are left out. A date is an
    ordinal; [None] is the empty string of an absent ['date'] key. *)
Record rate_record : Type := {
  store_id : Z;
  unit_type : string;
  size : string;
  walk_in_price : option Qc;
  online_price : option Qc;
  pct_difference : option Qc;
  date : option Z;
  record_source : source
}.

(** A row of [dbo.Rates] or [dbo.Rates_2024], by the selected columns. *)
Record db_row : Type := {
  Store_ID : Z;
  Spacetype : string;
  Size : string;
  Regular_Rate : option Qc;
  Online_Rate : option Qc;
  Date_Collected : Z
}.

(** The dictionary built per fetched row in [get_trailing_12_month_rates]. *)
Record db_rate : Type := {
  rate_store_id : Z;
  spacetype : string;
  rate_size : string;
  regular_rate : option Qc;
  online_rate : option Qc;
  date_collected : Z
}.

(** The two yearly tables; [None] is a table whose query raises. *)
Record database : Type := {
  Rates : option (list db_row);
  Rates_2024 : option (list db_row)
}.

(** The entries of an API payload: a price, a unit type, a store. *)
Record api_price : Type := {
  price_date : option Z;
  regular : option Qc;
  online : option Qc
}.

Record api_unit : Type := {
  type : string;
  unit_size : string;
  price : list api_price
}.

Record api_store : Type := {
  storeID : Z;
  unitType : list api_unit
}.

(** Python truthiness of a price: [None] and [0] are false. *)
Definition truthy (p : option Qc) : bool :=
  match p with
  | Some v => bool_decide (v ≠ 0)
  | None => false
  end.

(** [pct_diff = None;
     if regular_rate and online_rate and regular_rate > 0:
        pct_diff = ((regular_rate - online_rate) / regular_rate) * 100] *)
Definition pct_diff (regular_rate online_rate : option Qc) : option Qc :=
  match regular_rate, online_rate with
  | Some r, Some o =>
      if truthy (Some r) && truthy (Some o) && bool_decide (0 < r)
      then Some ((r - o) / r * Z2Qc 100)
      else None
  | _, _ => None
  end.

(** The [WHERE] clause of the query. *)
Definition selected (store_ids : list Z) (from_date to_date : Z)
    (row : db_row) : bool :=
  bool_decide (Store_ID row ∈ store_ids)
  && bool_decide (from_date ≤ Date_Collected row)%Z
  && bool_decide (Date_Collected row ≤ to_date)%Z
  && bool_decide (is_Some (Regular_Rate row)).

Definition row_to_rate (row : db_row) : db_rate :=
  {| rate_store_id := Store_ID row;
     spacetype := Spacetype row;
     rate_size := Size row;
     regular_rate := Regular_Rate row;
     online_rate := Online_Rate row;
     date_collected := Date_Collected row |}.

(** [tables_to_query]: [dbo.Rates], then [dbo.Rates_2024] when
    [from_date.year <= 2024], that is before 2025-01-01 (ordinal 739252). *)
Definition tables_to_query (db : database) (from_date : Z)
  : list (option (list db_row)) :=
  Rates db ::
  (if bool_decide (from_date < 739252)%Z then [Rates_2024 db] else []).

(** The result pair [(rates_by_store, dates_by_store)]. *)
Definition coverage : Type := gmap Z (list db_rate) * gmap Z (gset Z).

(** The body of [for row in rows]. *)
Definition add_row (acc : coverage) (row : db_row) : coverage :=
  (alter (λ rates, rates ++ [row_to_rate row]) (Store_ID row) acc.1,
   alter (λ dates, {[Date_Collected row]} ∪ dates) (Store_ID row) acc.2).

(** The body of [for table in tables_to_query]: a failing query is logged
    and skipped. The [ORDER BY] of the query is not modelled: rows come in
    table order. *)
Definition add_table (store_ids : list Z) (from_date to_date : Z)
    (acc : coverage) (table : option (list db_row)) : coverage :=
  match table with
  | None => acc
  | Some rows =>
      fold_left add_row (filter (selected store_ids from_date to_date) rows)
        acc
  end.

Definition get_trailing_12_month_rates (db : database) (store_ids : list Z)
    (from_date to_date : Z) : coverage :=
  match store_ids with
  | [] => (∅, ∅)
  | _ =>
      fold_left (add_table store_ids from_date to_date)
        (tables_to_query db from_date)
        (list_to_map ((λ sid, (sid, [])) <$> store_ids),
         list_to_map ((λ sid, (sid, ∅)) <$> store_ids))
  end.

(** The record built per rate in [convert_db_rates_to_records]. *)
Definition db_record (store_id : Z) (rate : db_rate) : rate_record :=
  {| store_id := store_id;
     unit_type := spacetype rate;
     size := rate_size rate;
     walk_in_price := regular_rate rate;
     online_price := online_rate rate;
     pct_difference := pct_diff (regular_rate rate) (online_rate rate);
     date := Some (date_collected rate);
     record_source := Database |}.

(** [for store_id, rates in rates_by_store.items(): for rate in rates].
    The stores are visited in the order of the map. *)
Definition convert_db_rates_to_records (rates_by_store : gmap Z (list db_rate))
  : list rate_record :=
  '(store_id, rates) ← map_to_list rates_by_store;
  db_record store_id <$> rates.

(** The record built per price in [parse_api_rate_data]. *)
Definition api_record (store : api_store) (unit : api_unit) (p : api_price)
  : rate_record :=
  {| store_id := storeID store;
     unit_type := type unit;
     size := unit_size unit;
     walk_in_price := regular p;
     online_price := online p;
     pct_difference := pct_diff (regular p) (online p);
     date := price_date p;
     record_source := API |}.

(** [for store in api_data: for unit in unit_types: for price in prices] *)
Definition parse_api_rate_data (api_data : list api_store)
  : list rate_record :=
  store ← api_data;
  unit ← unitType store;
  api_record store unit <$> price unit.

(** [str.lower] on ASCII text. *)
Definition lower_char (c : Ascii.ascii) : Ascii.ascii :=
  let n := Ascii.nat_of_ascii c in
  if ((65 <=? n) && (n <=? 90))%nat then Ascii.ascii_of_nat (n + 32) else c.

Fixpoint lower (s : string) : string :=
  match s with
  | EmptyString => EmptyString
  | String c s' => String (lower_char c) (lower s')
  end.

(** [[r for r in records if r.get('unit_type', '').lower() == unit_type.lower()]] *)
Definition filter_unit_type (records : list rate_record) (unit_type_ : string)
  : list rate_record :=
  filter (λ r, lower (unit_type r) = lower unit_type_) records.

(** Steps 11 and 12 of [main]: [all_records = db_records + api_records],
    then [filter_unit_type(all_records, "Unit")]. The later steps rename
    stores and tags in place and drop nothing. *)
Definition combined_records (db_records api_records : list rate_record)
  : list rate_record :=
  filter_unit_type (db_records ++ api_records) "Unit".

(** The deduplication key of the specification. *)
Definition dedup_key (r : rate_record) : Z * option Z * string * string :=
  (store_id r, date r, size r, unit_type r).

Definition with_key (k : Z * option Z * string * string)
    (records : list rate_record) : list rate_record :=
  filter (λ r, dedup_key r = k) records.

(** What the specification asks of a key held by both sources: one record
    left, the local one. *)
Definition local_copy_only (k : Z * option Z * string * string)
    (records : list rate_record) : Prop :=
  ∃ rec, with_key k records = [rec] ∧ record_source rec = Database.

(** The record invariant of the specification. *)
Definition record_invariant (from_date to_date : Z) (r : rate_record) : Prop :=
  (∃ d, date r = Some d ∧ (from_date ≤ d ≤ to_date)%Z)
  ∧ (is_Some (walk_in_price r) ∨ is_Some (online_price r)).

(** *** A run with one store, 2025-01-05 (ordinal 739256) held by both
    sources *)

Definition example_db : database :=
  {| Rates :=
       Some [ {| Store_ID := 1; Spacetype := "Unit"; Size := "10x10";
                 Regular_Rate := Some (Z2Qc 100);
                 Online_Rate := Some (Z2Qc 90);
                 Date_Collected := 739256 |} ];
     Rates_2024 := Some [] |}.

Definition example_db_records : list rate_record :=
  convert_db_rates_to_records
    (get_trailing_12_month_rates example_db [1%Z] 739221 739260).1.

Definition example_api_data : list api_store :=
  [ {| storeID := 1;
       unitType :=
         [ {| type := "Unit"; unit_size := "10x10";
              price := [ {| price_date := Some 739256%Z;
                            regular := Some (Z2Qc 105);
                            online := Some (Z2Qc 95) |} ] |} ] |} ].

Definition example_key : Z * option Z * string * string :=
  (1%Z, Some 739256%Z, "10x10"%string, "Unit"%string).

(** A payload with a price entry holding no price at all. *)
Definition unpriced_api_data : list api_store :=
  [ {| storeID := 1;
       unitType :=
         [ {| type := "Unit"; unit_size := "10x10";
              price := [ {| price_date := Some 739257%Z;
                            regular := None;
                            online := None |} ] |} ] |} ].

(** *** The combination step *)

Lemma example_records_with_key :
  record_source <$>
    with_key example_key
      (combined_records example_db_records
         (parse_api_rate_data example_api_data))
  = [Database; API].
Proof. by vm_compute. Qed.

(** C1 as stated fails: a key held by the database and by the API payload
    is left with two records after the combination, one of them remote. *)
Lemma combined_keeps_remote_copy :
  ¬ local_copy_only example_key
      (combined_records example_db_records
         (parse_api_rate_data example_api_data)).
Proof.
  intros (rec & Heq & _). pose proof example_records_with_key as Hsrc.
  rewrite Heq in Hsrc. discriminate.
Qed.

Lemma elem_of_combined_records db_records api_records rec :
  rec ∈ combined_records db_records api_records
  ↔ (rec ∈ db_records ∨ rec ∈ api_records)
    ∧ lower (unit_type rec) = "unit"%string.
Proof.
  unfold combined_records, filter_unit_type.
  rewrite list_elem_of_filter, elem_of_app. simpl. tauto.
Qed.

(** C1, amended. The combined record set is the local records followed by
    the remote ones, restricted to unit type "Unit", without any
    deduplication: a key occurs as often as it does in both sources
    together, and every local record of that unit type is kept. *)
Theorem combined_records_concatenates
    (db_records api_records : list rate_record)
    (k : Z * option Z * string * string) :
  combined_records db_records api_records
    = filter_unit_type db_records "Unit"
      ++ filter_unit_type api_records "Unit"
  ∧ length (with_key k (combined_records db_records api_records))
    = (length (with_key k (filter_unit_type db_records "Unit"))
       + length (with_key k (filter_unit_type api_records "Unit")))%nat
  ∧ (∀ rec, rec ∈ combined_records db_records api_records
            ↔ (rec ∈ db_records ∨ rec ∈ api_records)
              ∧ lower (unit_type rec) = "unit"%string).
Proof.
  assert (combined_records db_records api_records
          = filter_unit_type db_records "Unit"
            ++ filter_unit_type api_records "Unit") as Heq
    by apply filter_app.
  split_and!; [done| |apply elem_of_combined_records].
  rewrite Heq. unfold with_key. by rewrite filter_app, length_app.
Qed.

(** *** Percent difference *)

Lemma truthy_Some v : truthy (Some v) = true ↔ v ≠ 0.
Proof. simpl. by rewrite bool_decide_eq_true. Qed.

Lemma pct_diff_Some regular_rate online_rate v :
  pct_diff regular_rate online_rate = Some v
  ↔ ∃ r o, regular_rate = Some r ∧ online_rate = Some o
           ∧ o ≠ 0 ∧ 0 < r ∧ v = (r - o) / r * Z2Qc 100.
Proof.
  unfold pct_diff. split.
  - destruct regular_rate as [r|], online_rate as [o|]; try done.
    destruct (truthy (Some r) && truthy (Some o) && bool_decide (0 < r))
      eqn:Hc; [|done].
    apply andb_true_iff in Hc as [[_ Ho]%andb_true_iff Hr].
    apply truthy_Some in Ho. apply bool_decide_eq_true in Hr.
    intros [= <-]. by exists r, o.
  - intros (r & o & -> & -> & Ho & Hr & ->).
    assert (r ≠ 0) as Hr0.
    { intros ->. by apply Qclt_not_eq in Hr. }
    apply truthy_Some in Ho, Hr0. rewrite Ho, Hr0.
    by rewrite bool_decide_true.
Qed.

Lemma elem_of_convert_db_rates_to_records rates_by_store rec :
  rec ∈ convert_db_rates_to_records rates_by_store
  ↔ ∃ sid rates rate, rates_by_store !! sid = Some rates ∧ rate ∈ rates
                      ∧ rec = db_record sid rate.
Proof.
  unfold convert_db_rates_to_records. rewrite list_elem_of_bind. split.
  - intros ([sid rates] & Hrec & Hin%elem_of_map_to_list).
    apply list_elem_of_fmap in Hrec as (rate & -> & Hrate). eauto 6.
  - intros (sid & rates & rate & Hlook & Hrate & ->).
    exists (sid, rates). split; [|by apply elem_of_map_to_list].
    apply list_elem_of_fmap. eauto.
Qed.

Lemma elem_of_parse_api_rate_data api_data rec :
  rec ∈ parse_api_rate_data api_data
  ↔ ∃ store unit p, store ∈ api_data ∧ unit ∈ unitType store
                    ∧ p ∈ price unit ∧ rec = api_record store unit p.
Proof.
  unfold parse_api_rate_data. rewrite list_elem_of_bind. split.
  - intros (store & Hrec & Hstore).
    apply list_elem_of_bind in Hrec as (unit & Hrec & Hunit).
    apply list_elem_of_fmap in Hrec as (p & -> & Hp). eauto 8.
  - intros (store & unit & p & Hstore & Hunit & Hp & ->).
    exists store. split; [|done]. apply list_elem_of_bind.
    exists unit. split; [|done]. apply list_elem_of_fmap. eauto.
Qed.

(** C8 as stated fails: with a regular price of 100 and an online price
    present and equal to 0, both adapters leave the percent difference
    null instead of (100 - 0) / 100 * 100. *)
Lemma pct_difference_null_for_zero_online :
  let rate := {| rate_store_id := 1; spacetype := "Unit";
                 rate_size := "10x10"; regular_rate := Some (Z2Qc 100);
                 online_rate := Some (Z2Qc 0); date_collected := 739256 |} in
  let p := {| price_date := Some 739256%Z; regular := Some (Z2Qc 100);
              online := Some (Z2Qc 0) |} in
  pct_difference (db_record 1 rate)
    ≠ Some ((Z2Qc 100 - Z2Qc 0) / Z2Qc 100 * Z2Qc 100)
  ∧ ∀ store unit,
      pct_difference (api_record store unit p)
        ≠ Some ((Z2Qc 100 - Z2Qc 0) / Z2Qc 100 * Z2Qc 100).
Proof. split; [|intros store unit]; by vm_compute. Qed.

(** C8, amended. In the records of both adapters the percent difference
    is (regular - online) / regular * 100 exactly when both prices are
    present, the online price is not 0 and the regular price is positive;
    it is null otherwise. *)
Theorem pct_difference_computed :
  (∀ regular_rate online_rate v,
     pct_diff regular_rate online_rate = Some v
     ↔ ∃ r o, regular_rate = Some r ∧ online_rate = Some o
              ∧ o ≠ 0 ∧ 0 < r ∧ v = (r - o) / r * Z2Qc 100)
  ∧ (∀ regular_rate online_rate,
       pct_diff regular_rate online_rate = None
       ↔ ¬ ∃ r o, regular_rate = Some r ∧ online_rate = Some o
                  ∧ o ≠ 0 ∧ 0 < r)
  ∧ (∀ rates_by_store rec,
       rec ∈ convert_db_rates_to_records rates_by_store →
       pct_difference rec = pct_diff (walk_in_price rec) (online_price rec))
  ∧ (∀ api_data rec,
       rec ∈ parse_api_rate_data api_data →
       pct_difference rec = pct_diff (walk_in_price rec) (online_price rec)).
Proof.
  split_and!.
  - apply pct_diff_Some.
  - intros regular_rate online_rate. split.
    + intros Hnone (r & o & Hr & Ho & Hne & Hpos).
      assert (pct_diff regular_rate online_rate
              = Some ((r - o) / r * Z2Qc 100)) as Hsome
        by (apply pct_diff_Some; eauto 8).
      congruence.
    + intros Hnot.
      destruct (pct_diff regular_rate online_rate) as [v|] eqn:Hp; [|done].
      apply pct_diff_Some in Hp as (r & o & ? & ? & ? & ? & _).
      exfalso. apply Hnot. eauto 8.
  - intros rates_by_store rec
      (sid & rates & rate & _ & _ & ->)%elem_of_convert_db_rates_to_records.
    done.
  - intros api_data rec
      (store & unit & p & _ & _ & _ & ->)%elem_of_parse_api_rate_data.
    done.
Qed.

(** *** What the database reader lets through *)

(** A rate dictionary stored under [sid] that satisfies the query's
    [WHERE] clause. *)
Definition rate_ok (from_date to_date sid : Z) (rate : db_rate) : Prop :=
  rate_store_id rate = sid
  ∧ (from_date ≤ date_collected rate ≤ to_date)%Z
  ∧ is_Some (regular_rate rate).

Definition rates_ok (from_date to_date : Z)
    (rates_by_store : gmap Z (list db_rate)) : Prop :=
  ∀ sid rates rate,
    rates_by_store !! sid = Some rates → rate ∈ rates →
    rate_ok from_date to_date sid rate.

Lemma selected_true store_ids from_date to_date row :
  selected store_ids from_date to_date row = true
  ↔ Store_ID row ∈ store_ids
    ∧ (from_date ≤ Date_Collected row ≤ to_date)%Z
    ∧ is_Some (Regular_Rate row).
Proof.
  unfold selected. rewrite !andb_true_iff, !bool_decide_eq_true. tauto.
Qed.

Lemma add_row_ok store_ids from_date to_date acc row :
  selected store_ids from_date to_date row = true →
  rates_ok from_date to_date acc.1 →
  rates_ok from_date to_date (add_row acc row).1.
Proof.
  intros (_ & Hdate & Hreg)%selected_true Hacc sid rates rate. simpl.
  rewrite lookup_alter. case_decide as Hsid.
  - subst sid.
    destruct (acc.1 !! Store_ID row) as [old|] eqn:Hold; simpl; [|done].
    intros [= <-] [Hin | ->%list_elem_of_singleton]%elem_of_app.
    + by apply (Hacc (Store_ID row) old).
    + done.
  - apply Hacc.
Qed.

Lemma fold_add_row_ok store_ids from_date to_date rows acc :
  Forall (λ row, selected store_ids from_date to_date row = true) rows →
  rates_ok from_date to_date acc.1 →
  rates_ok from_date to_date (fold_left add_row rows acc).1.
Proof.
  intros Hrows. revert acc.
  induction Hrows as [|row rows Hrow _ IH]; intros acc Hacc; simpl; [done|].
  apply IH. by apply (add_row_ok store_ids).
Qed.

Lemma add_table_ok store_ids from_date to_date acc table :
  rates_ok from_date to_date acc.1 →
  rates_ok from_date to_date
    (add_table store_ids from_date to_date acc table).1.
Proof.
  intros Hacc. destruct table as [rows|]; simpl; [|done].
  apply (fold_add_row_ok store_ids); [|done].
  apply Forall_forall. intros row [Hsel _]%list_elem_of_filter.
  by destruct (selected store_ids from_date to_date row).
Qed.

Lemma fold_add_table_ok store_ids from_date to_date tables acc :
  rates_ok from_date to_date acc.1 →
  rates_ok from_date to_date
    (fold_left (add_table store_ids from_date to_date) tables acc).1.
Proof.
  revert acc. induction tables as [|table tables IH]; intros acc Hacc;
    simpl; [done|].
  apply IH. by apply add_table_ok.
Qed.

Lemma get_trailing_12_month_rates_ok db store_ids from_date to_date :
  rates_ok from_date to_date
    (get_trailing_12_month_rates db store_ids from_date to_date).1.
Proof.
  unfold get_trailing_12_month_rates.
  destruct store_ids as [|sid0 store_ids].
  - intros sid rates rate Hlook. simpl in Hlook.
    by rewrite lookup_empty in Hlook.
  - apply fold_add_table_ok. cbn [fst].
    intros sid rates rate Hlook%elem_of_list_to_map_2 Hrate.
    apply list_elem_of_fmap in Hlook as (sid' & [= -> ->] & _).
    by apply elem_of_nil in Hrate.
Qed.

(** C6 as stated fails: a price entry of the payload without any price is
    turned into a record and kept in the combined set. *)
Lemma unpriced_remote_record_retained :
  ¬ Forall (record_invariant 739221 739260)
      (combined_records example_db_records
         (parse_api_rate_data unpriced_api_data)).
Proof.
  intros Hall. rewrite Forall_forall in Hall.
  destruct (Hall (api_record
                    {| storeID := 1; unitType := [] |}
                    {| type := "Unit"; unit_size := "10x10"; price := [] |}
                    {| price_date := Some 739257%Z; regular := None;
                       online := None |}))
    as [_ [[? [=]] | [? [=]]]].
  apply elem_of_combined_records. split; [|done]. right.
  vm_compute. apply list_elem_of_singleton. done.
Qed.

(** C6, amended. Every record of the local adapter has its date inside
    the requested window and a regular price, as the query selects only
    such rows; the remote adapter turns every price entry of the payload
    into a record carrying the entry's date and prices as they are. *)
Theorem local_records_in_window :
  (∀ db store_ids from_date to_date rec,
     rec ∈ convert_db_rates_to_records
             (get_trailing_12_month_rates db store_ids from_date to_date).1 →
     record_source rec = Database
     ∧ (∃ d, date rec = Some d ∧ (from_date ≤ d ≤ to_date)%Z)
     ∧ is_Some (walk_in_price rec))
  ∧ (∀ api_data store unit p,
       store ∈ api_data → unit ∈ unitType store → p ∈ price unit →
       ∃ rec, rec ∈ parse_api_rate_data api_data
              ∧ record_source rec = API
              ∧ date rec = price_date p
              ∧ walk_in_price rec = regular p
              ∧ online_price rec = online p).
Proof.
  split.
  - intros db store_ids from_date to_date rec
      (sid & rates & rate & Hlook & Hrate & ->)%elem_of_convert_db_rates_to_records.
    destruct (get_trailing_12_month_rates_ok db store_ids from_date to_date
                sid rates rate Hlook Hrate) as (_ & Hdate & Hreg).
    simpl. eauto.
  - intros api_data store unit p Hstore Hunit Hp.
    exists (api_record store unit p). split_and!; try done.
    apply elem_of_parse_api_rate_data. eauto 8.
Qed.

End Records.

(** ** The output stage: price cells of [export_to_csv], and the monthly
    and trailing averages of [generate_csv2_report] *)

Module Report.

Import Records.
Local Open Scope Qc_scope.

(** A CSV cell holding a price: [Blank] is the empty string and [Money v]
    the text ["$" v] with two decimals. *)
Inductive cell : Type := Blank | Money (amount : Qc).

(** [f"${p:.2f}" if p else ''] *)
Definition price_cell (p : option Qc) : cell :=
  match p with
  | Some v => if bool_decide (v ≠ 0) then Money v else Blank
  | None => Blank
  end.

(** The ['REGULAR PRICE'] and ['ONLINE PRICE'] cells of a row of
    [export_to_csv]. *)
Definition export_price_cells (rec : rate_record) : cell * cell :=
  (price_cell (walk_in_price rec), price_cell (online_price rec)).

(** The dictionaries grouped by [generate_csv2_report]. *)
Record entry : Type := {
  entry_date : Z;
  entry_walk_in_price : option Qc;
  entry_online_price : option Qc;
  entry_store_id : Z
}.

(** [sum(prices) / len(prices) if prices else None] *)
Definition mean (prices : list Qc) : option Qc :=
  match prices with
  | [] => None
  | _ => Some (fold_left Qcplus prices 0 / Z2Qc (Z.of_nat (length prices)))
  end.

(** [[r[field] for r in records if r['date'] >= start_date and r[field]]] *)
Definition prices_since (field : entry → option Qc) (start_date : Z)
    (records : list entry) : list Qc :=
  omap (λ r, if bool_decide (start_date ≤ entry_date r)%Z && truthy (field r)
             then field r else None) records.

(** [online_avg * (1 + adjustment_pct) if online_avg else None] *)
Definition adjusted (online_avg : option Qc) (adjustment_pct : Qc)
  : option Qc :=
  match online_avg with
  | Some avg => if bool_decide (avg ≠ 0) then Some (avg * (1 + adjustment_pct))
                else None
  | None => None
  end.

Definition calc_t_averages (records : list entry) (start_date : Z)
    (adjustment_pct : Qc) : option Qc * option Qc * option Qc :=
  let walk_in_avg := mean (prices_since entry_walk_in_price start_date records) in
  let online_avg := mean (prices_since entry_online_price start_date records) in
  (walk_in_avg, online_avg, adjusted online_avg adjustment_pct).

(** The three cells written for one trailing period. *)
Definition t_cells (averages : option Qc * option Qc * option Qc)
  : cell * cell * cell :=
  (price_cell averages.1.1, price_cell averages.1.2, price_cell averages.2).

Section Monthly.

(** The calendar month of a day, as [datetime] computes it. *)
Variable month : Z → Z.

(** [{m: [] for m in range(1, 13)}] *)
Definition empty_months : gmap Z (list Qc) :=
  list_to_map ((λ m, (m, [])) <$> seqZ 1 12).

(** [if p: monthly[month].append(p)] *)
Definition append_price (m : Z) (p : option Qc) (monthly : gmap Z (list Qc))
  : gmap Z (list Qc) :=
  match p with
  | Some v => if bool_decide (v ≠ 0)
              then alter (λ prices, prices ++ [v]) m monthly
              else monthly
  | None => monthly
  end.

(** The body of [for r in rate_records] on the pair
    [(monthly_walk_in, monthly_online)]. *)
Definition add_monthly (acc : gmap Z (list Qc) * gmap Z (list Qc))
    (r : entry) : gmap Z (list Qc) * gmap Z (list Qc) :=
  let m := month (entry_date r) in
  (append_price m (entry_walk_in_price r) acc.1,
   append_price m (entry_online_price r) acc.2).

(** The three monthly cells of a store row for month [i]. *)
Definition month_cells (monthly : gmap Z (list Qc) * gmap Z (list Qc))
    (adjustment_pct : Qc) (i : Z) : cell * cell * cell :=
  let walk_in_avg := mean (default [] (monthly.1 !! i)) in
  let online_avg := mean (default [] (monthly.2 !! i)) in
  (price_cell walk_in_avg, price_cell online_avg,
   price_cell (adjusted online_avg adjustment_pct)).

(** The price cells of a store's row: twelve months, then the trailing
    periods that start at [t12_start], [t6_start], [t3_start], [t1_start]. *)
Definition store_row (rate_records : list entry) (adjustment_pct : Qc)
    (t_starts : list Z) : list (cell * cell * cell) :=
  let monthly :=
    fold_left add_monthly rate_records (empty_months, empty_months) in
  (month_cells monthly adjustment_pct <$> seqZ 1 12)
  ++ ((λ start, t_cells (calc_t_averages rate_records start adjustment_pct))
        <$> t_starts).

(** [[r[field] for r in all_records_in_group
       if r['date'].month == i and r[field]]] *)
Definition prices_in_month (field : entry → option Qc) (i : Z)
    (records : list entry) : list Qc :=
  omap (λ r, if bool_decide (month (entry_date r) = i) && truthy (field r)
             then field r else None) records.

(** The price cells of the [AVERAGE] row of a group; the adjusted cells
    stay empty. *)
Definition average_row (all_records_in_group : list entry)
    (t_starts : list Z) : list (cell * cell * cell) :=
  ((λ i, (price_cell (mean (prices_in_month entry_walk_in_price i
                              all_records_in_group)),
          price_cell (mean (prices_in_month entry_online_price i
                              all_records_in_group)),
          Blank)) <$> seqZ 1 12)
  ++ ((λ start,
         let averages := calc_t_averages all_records_in_group start 0 in
         (price_cell averages.1.1, price_cell averages.1.2, Blank))
        <$> t_starts).

End Monthly.

(** A price of 0 replaced by an absent price. *)
Definition absent_if_zero (p : option Qc) : option Qc :=
  if truthy p then p else None.

Definition zero_as_absent (r : entry) : entry :=
  {| entry_date := entry_date r;
     entry_walk_in_price := absent_if_zero (entry_walk_in_price r);
     entry_online_price := absent_if_zero (entry_online_price r);
     entry_store_id := entry_store_id r |}.

(** *** A zero price counts as no price *)

Lemma truthy_absent_if_zero p : truthy (absent_if_zero p) = truthy p.
Proof. unfold absent_if_zero. by destruct (truthy p) eqn:Hp. Qed.

Lemma absent_if_zero_keep p : truthy p = true → absent_if_zero p = p.
Proof. unfold absent_if_zero. by intros ->. Qed.

Lemma price_cell_absent_if_zero p : price_cell (absent_if_zero p) = price_cell p.
Proof.
  destruct p as [v|]; [|done]. unfold absent_if_zero; simpl.
  case_bool_decide; simpl; [|done]. by rewrite bool_decide_true.
Qed.

(** A field of the grouped dictionaries that [zero_as_absent] rewrites. *)
Definition price_field (field : entry → option Qc) : Prop :=
  ∀ r, field (zero_as_absent r) = absent_if_zero (field r).

Lemma select_absent_if_zero (c : bool) p :
  (if c && truthy (absent_if_zero p) then absent_if_zero p else None)
  = (if c && truthy p then p else None).
Proof.
  rewrite truthy_absent_if_zero.
  destruct c, (truthy p) eqn:Hp; simpl; try done.
  by apply absent_if_zero_keep.
Qed.

Lemma prices_since_zero_as_absent field start_date records :
  price_field field →
  prices_since field start_date (zero_as_absent <$> records)
  = prices_since field start_date records.
Proof.
  intros Hfield. unfold prices_since.
  induction records as [|r records IH]; csimpl; [done|].
  rewrite IH, Hfield. by rewrite select_absent_if_zero.
Qed.

Lemma prices_in_month_zero_as_absent month field i records :
  price_field field →
  prices_in_month month field i (zero_as_absent <$> records)
  = prices_in_month month field i records.
Proof.
  intros Hfield. unfold prices_in_month.
  induction records as [|r records IH]; csimpl; [done|].
  rewrite IH, Hfield. by rewrite select_absent_if_zero.
Qed.

Lemma append_price_absent_if_zero m p monthly :
  append_price m (absent_if_zero p) monthly = append_price m p monthly.
Proof.
  destruct p as [v|]; [|done]. unfold absent_if_zero; simpl.
  case_bool_decide; simpl; [|done]. by rewrite bool_decide_true.
Qed.

Lemma add_monthly_zero_as_absent month acc r :
  add_monthly month acc (zero_as_absent r) = add_monthly month acc r.
Proof.
  unfold add_monthly; simpl. by rewrite !append_price_absent_if_zero.
Qed.

Lemma fold_add_monthly_zero_as_absent month records acc :
  fold_left (add_monthly month) (zero_as_absent <$> records) acc
  = fold_left (add_monthly month) records acc.
Proof.
  revert acc. induction records as [|r records IH]; intros acc; simpl;
    [done|].
  by rewrite add_monthly_zero_as_absent, IH.
Qed.

Lemma walk_in_price_field : price_field entry_walk_in_price.
Proof. by intros r. Qed.

Lemma online_price_field : price_field entry_online_price.
Proof. by intros r. Qed.

Lemma calc_t_averages_zero_as_absent records start_date adjustment_pct :
  calc_t_averages (zero_as_absent <$> records) start_date adjustment_pct
  = calc_t_averages records start_date adjustment_pct.
Proof.
  unfold calc_t_averages.
  rewrite (prices_since_zero_as_absent _ _ _ walk_in_price_field).
  by rewrite (prices_since_zero_as_absent _ _ _ online_price_field).
Qed.

Lemma store_row_zero_as_absent month records adjustment_pct t_starts :
  store_row month (zero_as_absent <$> records) adjustment_pct t_starts
  = store_row month records adjustment_pct t_starts.
Proof.
  unfold store_row. rewrite fold_add_monthly_zero_as_absent.
  f_equal. apply list_fmap_ext. intros _ start _.
  by rewrite calc_t_averages_zero_as_absent.
Qed.

Lemma average_row_zero_as_absent month records t_starts :
  average_row month (zero_as_absent <$> records) t_starts
  = average_row month records t_starts.
Proof.
  unfold average_row. f_equal.
  - apply list_fmap_ext. intros _ i _.
    rewrite (prices_in_month_zero_as_absent _ _ _ _ walk_in_price_field).
    by rewrite (prices_in_month_zero_as_absent _ _ _ _ online_price_field).
  - apply list_fmap_ext. intros _ start _.
    by rewrite calc_t_averages_zero_as_absent.
Qed.

(** Only non-zero prices reach a list that is averaged. *)
Lemma prices_since_nonzero field start_date records :
  Forall (λ v, v ≠ 0) (prices_since field start_date records).
Proof.
  apply Forall_forall. intros v (r & _ & Hv)%list_elem_of_omap.
  destruct (bool_decide (start_date ≤ entry_date r)%Z && truthy (field r))
    eqn:Hc; [|done].
  apply andb_true_iff in Hc as [_ Ht]. rewrite Hv in Ht.
  by apply truthy_Some in Ht.
Qed.

Lemma prices_in_month_nonzero month field i records :
  Forall (λ v, v ≠ 0) (prices_in_month month field i records).
Proof.
  apply Forall_forall. intros v (r & _ & Hv)%list_elem_of_omap.
  destruct (bool_decide (month (entry_date r) = i) && truthy (field r))
    eqn:Hc; [|done].
  apply andb_true_iff in Hc as [_ Ht]. rewrite Hv in Ht.
  by apply truthy_Some in Ht.
Qed.

Definition months_nonzero (monthly : gmap Z (list Qc)) : Prop :=
  ∀ i prices, monthly !! i = Some prices → Forall (λ v, v ≠ 0) prices.

Lemma append_price_nonzero m p monthly :
  months_nonzero monthly → months_nonzero (append_price m p monthly).
Proof.
  intros Hm. destruct p as [v|]; [|done]. simpl.
  case_bool_decide as Hv; [|done].
  intros i prices. rewrite lookup_alter. case_decide as Hi; [|apply Hm].
  destruct (monthly !! m) as [old|] eqn:Hold; simpl; [|done].
  intros [= <-]. apply Forall_app. split; [by apply (Hm m)|].
  by repeat constructor.
Qed.

Lemma fold_add_monthly_nonzero month records acc :
  months_nonzero acc.1 → months_nonzero acc.2 →
  months_nonzero (fold_left (add_monthly month) records acc).1
  ∧ months_nonzero (fold_left (add_monthly month) records acc).2.
Proof.
  revert acc. induction records as [|r records IH]; intros acc H1 H2;
    simpl; [done|].
  apply IH; simpl; by apply append_price_nonzero.
Qed.

Lemma empty_months_nonzero : months_nonzero empty_months.
Proof.
  intros i prices Hlook%elem_of_list_to_map_2.
  apply list_elem_of_fmap in Hlook as (m & [= -> ->] & _). constructor.
Qed.

(** C10. A price of exactly 0 is handled as an absent price by the output
    stage: its cell in the flat export is empty, the rows of the grouped
    report (monthly and trailing averages, per store and pooled) are the
    same as if the price were null, no list that is averaged holds a 0,
    and the percent difference of a record with a zero price is null. *)
Theorem zero_price_is_absent (month : Z → Z) :
  price_cell (Some 0) = Blank
  ∧ (∀ rec,
       (walk_in_price rec = Some 0 → (export_price_cells rec).1 = Blank)
       ∧ (online_price rec = Some 0 → (export_price_cells rec).2 = Blank))
  ∧ (∀ records adjustment_pct t_starts,
       store_row month (zero_as_absent <$> records) adjustment_pct t_starts
       = store_row month records adjustment_pct t_starts)
  ∧ (∀ records t_starts,
       average_row month (zero_as_absent <$> records) t_starts
       = average_row month records t_starts)
  ∧ (∀ records start_date adjustment_pct,
       calc_t_averages (zero_as_absent <$> records) start_date adjustment_pct
       = calc_t_averages records start_date adjustment_pct)
  ∧ (∀ field start_date i records,
       Forall (λ v, v ≠ 0) (prices_since field start_date records)
       ∧ Forall (λ v, v ≠ 0) (prices_in_month month field i records))
  ∧ (∀ records,
       let monthly :=
         fold_left (add_monthly month) records (empty_months, empty_months) in
       months_nonzero monthly.1 ∧ months_nonzero monthly.2)
  ∧ (∀ p, pct_diff (Some 0) p = None ∧ pct_diff p (Some 0) = None).
Proof.
  split_and!.
  - done.
  - intros rec. unfold export_price_cells; simpl.
    split; by intros ->.
  - apply store_row_zero_as_absent.
  - apply average_row_zero_as_absent.
  - apply calc_t_averages_zero_as_absent.
  - intros field start_date i records.
    split; [apply prices_since_nonzero | apply prices_in_month_nonzero].
  - intros records monthly.
    apply fold_add_monthly_nonzero; apply empty_months_nonzero.
  - intros p. split.
    + unfold pct_diff. by destruct p.
    + destruct p as [v|]; [|done]. unfold pct_diff. simpl.
      by rewrite andb_false_r.
Qed.

End Report.

(** ** The remote client: [_get_auth_token] and [fetch_historical_data] *)

Module Client.

Import Records.

(** [_RATE_LIMIT_PER_HOUR] *)
Definition RATE_LIMIT_PER_HOUR : Z := 3000.

(** What [resp.json()] returns: a list of store payloads, or one payload. *)
Inductive json : Type :=
  | JsonList (stores : list api_store)
  | JsonObject (store : api_store).

(** An HTTP answer; [json_body = None] is a body on which [resp.json()]
    raises. *)
Record response : Type := {
  status_code : Z;
  text : string;
  json_body : option json
}.

(** The outcome of [self._session.post]: an exception or an answer. *)
Inductive post_result : Type :=
  | Raised
  | Responded (resp : response).

(** The outcome of the POST to [authtoken]; [auth_token] is
    [j.get('access_token') or j.get('token')], [None] when that is falsy
    or the body is no JSON. *)
Inductive auth_result : Type :=
  | AuthRaised
  | AuthResponded (status : Z) (auth_token : option string).

(** One POST sent to [historicaldata]: when it was sent, the window start
    at that time, the [authorization] header, and whether it was answered
    (and therefore counted). *)
Record post_event : Type := {
  post_time : Z;
  post_window : Z;
  post_authorization : option string;
  post_answered : bool
}.

(** The client's [_token], the module globals [_rate_window_start] and
    [_rate_call_count], the clock, and the traffic sent so far. *)
Record state : Type := {
  token : option string;
  rate_window_start : Z;
  rate_call_count : Z;
  clock : Z;
  auth_posts : nat;
  hist_posts : list post_event
}.

Definition set_token (t : option string) (st : state) : state :=
  {| token := t; rate_window_start := rate_window_start st;
     rate_call_count := rate_call_count st; clock := clock st;
     auth_posts := auth_posts st; hist_posts := hist_posts st |}.

(** [time.sleep(d)] *)
Definition sleep (d : Z) (st : state) : state :=
  {| token := token st; rate_window_start := rate_window_start st;
     rate_call_count := rate_call_count st; clock := clock st + d;
     auth_posts := auth_posts st; hist_posts := hist_posts st |}.

(** [_rate_window_start = time.time(); _rate_call_count = 0] *)
Definition reset_window (st : state) : state :=
  {| token := token st; rate_window_start := clock st;
     rate_call_count := 0; clock := clock st;
     auth_posts := auth_posts st; hist_posts := hist_posts st |}.

(** [_rate_call_count += 1] *)
Definition count_call (st : state) : state :=
  {| token := token st; rate_window_start := rate_window_start st;
     rate_call_count := rate_call_count st + 1; clock := clock st;
     auth_posts := auth_posts st; hist_posts := hist_posts st |}.

Definition log_auth_post (st : state) : state :=
  {| token := token st; rate_window_start := rate_window_start st;
     rate_call_count := rate_call_count st; clock := clock st;
     auth_posts := S (auth_posts st); hist_posts := hist_posts st |}.

Definition log_post (e : post_event) (st : state) : state :=
  {| token := token st; rate_window_start := rate_window_start st;
     rate_call_count := rate_call_count st; clock := clock st;
     auth_posts := auth_posts st; hist_posts := hist_posts st ++ [e] |}.

(** [elapsed = time.time() - _rate_window_start;
     if elapsed < 3600.0: time.sleep(3600.0 - elapsed)], then the reset. *)
Definition drain_window (st : state) : state :=
  let elapsed := clock st - rate_window_start st in
  reset_window
    (if bool_decide (elapsed < 3600) then sleep (3600 - elapsed) st else st).

(** The check at the head of every attempt. *)
Definition rate_limit_wait (st : state) : state :=
  if bool_decide (RATE_LIMIT_PER_HOUR ≤ rate_call_count st)
  then drain_window st
  else st.

(** [needle in haystack] *)
Fixpoint contains (needle haystack : string) : bool :=
  String.prefix needle haystack
  || match haystack with
     | EmptyString => false
     | String _ rest => contains needle rest
     end.

(** The signature of a transient SQL timeout in the body of a 400. *)
Definition sql_timeout (body : string) : bool :=
  let body_text := lower body in
  contains "sql server" body_text
  || contains "network-related" body_text
  || contains "timeout" body_text.

(** How an attempt ends: [return result] or [continue]. *)
Inductive outcome : Type :=
  | Return (result : option (list api_store))
  | Continue.

Section Service.

(** The answers of the login endpoint and of [historicaldata], by the
    number of POSTs already sent to each. *)
Variable auth : nat → auth_result.
Variable hist : nat → post_result.

Definition _get_auth_token (st : state) : option string * state :=
  match token st with
  | Some t => (Some t, st)
  | None =>
      let st' := log_auth_post st in
      match auth (auth_posts st) with
      | AuthResponded status auth_token =>
          if bool_decide (status = 200) then
            match auth_token with
            | Some t =>
                let bearer := ("Bearer " +:+ t)%string in
                (Some bearer, set_token (Some bearer) st')
            | None => (None, st')
            end
          else (None, st')
      | AuthRaised => (None, st')
      end
  end.

(** [if attempt < max_retries - 1: time.sleep(wait); continue
     else: return None] *)
Definition retry_after (max_retries attempt wait : Z) (st : state)
  : outcome * state :=
  if bool_decide (attempt < max_retries - 1)
  then (Continue, sleep wait st)
  else (Return None, st).

(** The branches on [resp.status_code], after the call was counted. *)
Definition handle_response (max_retries attempt : Z) (resp : response)
    (st : state) : outcome * state :=
  if bool_decide (status_code resp = 200) then
    match json_body resp with
    | Some (JsonList stores) => (Return (Some stores), st)
    | Some (JsonObject store) => (Return (Some [store]), st)
    | None => retry_after max_retries attempt (2 * (attempt + 1)) st
    end
  else if bool_decide (status_code resp = 429) then
    (if bool_decide (attempt < max_retries - 1) then Continue
     else Return None,
     drain_window st)
  else if bool_decide (status_code resp = 404) then
    retry_after max_retries attempt (2 * (attempt + 1)) st
  else if bool_decide (status_code resp = 500 ∨ status_code resp = 503) then
    retry_after max_retries attempt (5 * (attempt + 1)) st
  else if bool_decide (status_code resp = 400) then
    if sql_timeout (text resp)
    then retry_after max_retries attempt (5 * (attempt + 1)) st
    else (Return None, st)
  else (Return None, st).

(** The body of [for attempt in range(max_retries)]. *)
Definition attempt_once (max_retries attempt : Z) (st : state)
  : outcome * state :=
  let st1 := rate_limit_wait st in
  let '(header, st2) := _get_auth_token st1 in
  let answer := hist (length (hist_posts st2)) in
  let sent answered :=
    log_post {| post_time := clock st2;
                post_window := rate_window_start st2;
                post_authorization := header;
                post_answered := answered |} st2 in
  match answer with
  | Raised =>
      retry_after max_retries attempt (2 * (attempt + 1)) (sent false)
  | Responded resp =>
      handle_response max_retries attempt resp (count_call (sent true))
  end.

Fixpoint run_attempts (max_retries : Z) (attempts : list Z) (st : state)
  : option (list api_store) * state :=
  match attempts with
  | [] => (None, st)
  | attempt :: rest =>
      match attempt_once max_retries attempt st with
      | (Return result, st') => (result, st')
      | (Continue, st') => run_attempts max_retries rest st'
      end
  end.

Definition fetch_historical_data (max_retries : Z) (st : state)
  : option (list api_store) * state :=
  run_attempts max_retries (seqZ 0 max_retries) st.

(** A run of calls with [max_retries = 3], each after an idle time. *)
Definition run_calls (delays : list Z) (st : state) : state :=
  fold_left (λ st delay, (fetch_historical_data 3 (sleep delay st)).2)
            delays st.

End Service.

(** The answers the client retries. *)
Definition transient (answer : post_result) : bool :=
  match answer with
  | Raised => true
  | Responded resp =>
      bool_decide (status_code resp = 429)
      || bool_decide (status_code resp = 404)
      || bool_decide (status_code resp = 500)
      || bool_decide (status_code resp = 503)
      || (bool_decide (status_code resp = 400) && sql_timeout (text resp))
  end.

(** *** Traffic of one attempt *)

Section Facts.

Variable auth : nat → auth_result.
Variable hist : nat → post_result.

Lemma rate_limit_wait_posts st :
  hist_posts (rate_limit_wait st) = hist_posts st
  ∧ auth_posts (rate_limit_wait st) = auth_posts st
  ∧ token (rate_limit_wait st) = token st.
Proof.
  unfold rate_limit_wait, drain_window.
  repeat case_bool_decide; done.
Qed.

Lemma get_auth_token_posts st :
  hist_posts (_get_auth_token auth st).2 = hist_posts st.
Proof.
  unfold _get_auth_token. destruct (token st); [done|].
  destruct (auth (auth_posts st)) as [|status [t|]]; try done;
    by case_bool_decide.
Qed.

Lemma retry_after_posts max_retries attempt wait st :
  hist_posts (retry_after max_retries attempt wait st).2 = hist_posts st.
Proof. unfold retry_after. by case_bool_decide. Qed.

Lemma handle_response_posts max_retries attempt resp st :
  hist_posts (handle_response max_retries attempt resp st).2 = hist_posts st.
Proof.
  unfold handle_response, drain_window.
  repeat case_bool_decide; simpl; try done;
    repeat case_match; simpl; try done; apply retry_after_posts.
Qed.

(** Every attempt sends exactly one POST to [historicaldata]. *)
Lemma attempt_once_posts max_retries attempt st :
  length (hist_posts (attempt_once auth hist max_retries attempt st).2)
  = S (length (hist_posts st)).
Proof.
  unfold attempt_once.
  pose proof (get_auth_token_posts (rate_limit_wait st)) as Hposts.
  destruct (_get_auth_token auth (rate_limit_wait st)) as [header st2].
  simpl in Hposts.
  destruct (rate_limit_wait_posts st) as (Hwait & _ & _).
  destruct (hist (length (hist_posts st2))) as [|resp].
  - rewrite retry_after_posts. simpl.
    rewrite length_app, Hposts, Hwait. simpl. lia.
  - rewrite handle_response_posts. simpl.
    rewrite length_app, Hposts, Hwait. simpl. lia.
Qed.


(** A retried answer ends the attempt with [continue], or with
    [return None] on the last attempt. *)
Lemma attempt_once_transient max_retries attempt st :
  transient (hist (length (hist_posts st))) = true →
  (attempt_once auth hist max_retries attempt st).1
  = if bool_decide (attempt < max_retries - 1) then Continue
    else Return None.
Proof.
  unfold attempt_once.
  pose proof (get_auth_token_posts (rate_limit_wait st)) as Hposts.
  destruct (_get_auth_token auth (rate_limit_wait st)) as [header st2].
  simpl in Hposts.
  destruct (rate_limit_wait_posts st) as (Hwait & _ & _).
  rewrite Hposts, Hwait.
  destruct (hist (length (hist_posts st))) as [|resp]; simpl.
  - intros _. unfold retry_after. by case_bool_decide.
  - unfold handle_response, retry_after.
    rewrite !orb_true_iff, andb_true_iff, !bool_decide_eq_true.
    intros Hstatus.
    repeat case_bool_decide; simpl; try done; try lia;
      destruct Hstatus as [[[[?|?]|?]|?]|[? Hsql]]; try lia; try tauto.
    all: rewrite Hsql; by rewrite ?bool_decide_true, ?bool_decide_false by lia.
Qed.

(** When every answer is one the client retries, the attempts from [k]
    up to [max_retries - 1] all take place and the call gives up. *)
Lemma run_attempts_transient max_retries (m : nat) k st :
  (∀ n, transient (hist n) = true) →
  k + Z.of_nat (S m) = max_retries →
  let r := run_attempts auth hist max_retries (seqZ k (Z.of_nat (S m))) st in
  r.1 = None
  ∧ length (hist_posts r.2) = (length (hist_posts st) + S m)%nat.
Proof.
  intros Htransient. revert k st.
  induction m as [|m IH]; intros k st Hk; cbn zeta.
  - rewrite seqZ_cons by lia. rewrite seqZ_nil by lia. simpl.
    pose proof (attempt_once_transient max_retries k st (Htransient _)) as H1.
    pose proof (attempt_once_posts max_retries k st) as H2.
    destruct (attempt_once auth hist max_retries k st) as [o st'].
    simpl in *. rewrite bool_decide_false in H1 by lia. subst o.
    simpl. split; [done|lia].
  - rewrite seqZ_cons by lia. cbn [run_attempts].
    pose proof (attempt_once_transient max_retries k st (Htransient _)) as H1.
    pose proof (attempt_once_posts max_retries k st) as H2.
    destruct (attempt_once auth hist max_retries k st) as [o st'].
    simpl in H1, H2. rewrite bool_decide_true in H1 by lia. subst o.
    replace (Z.pred (Z.of_nat (S (S m)))) with (Z.of_nat (S m)) by lia.
    destruct (IH (Z.succ k) st') as [Hres Hlen]; [lia|].
    split; [done|]. rewrite Hlen, H2. lia.
Qed.


End Facts.

(** C9. With [max_retries = 3] and a service that only gives answers the
    client retries (429, 404, 500, 503, a 400 with the timeout signature,
    or a transport exception), [fetch_historical_data] sends exactly three
    POSTs and returns [None]. *)
Theorem transient_failures_give_up (auth : nat → auth_result)
    (hist : nat → post_result) (st : state) :
  (∀ n, transient (hist n) = true) →
  (fetch_historical_data auth hist 3 st).1 = None
  ∧ length (hist_posts (fetch_historical_data auth hist 3 st).2)
    = (length (hist_posts st) + 3)%nat.
Proof.
  intros Htransient.
  apply (run_attempts_transient auth hist 3 2 0 st Htransient). lia.
Qed.

(** The state of a freshly imported module and a new client at time 0. *)
Definition fresh : state :=
  {| token := None; rate_window_start := 0; rate_call_count := 0;
     clock := 0; auth_posts := 0; hist_posts := [] |}.

Definition always_unavailable (n : nat) : post_result :=
  Responded {| status_code := 503; text := ""; json_body := None |}.

Definition no_login (n : nat) : auth_result := AuthRaised.

Lemma transient_failures_give_up_witness :
  (fetch_historical_data no_login always_unavailable 3 fresh).1 = None
  ∧ length (hist_posts
              (fetch_historical_data no_login always_unavailable 3 fresh).2)
    = (length (hist_posts fresh) + 3)%nat.
Proof.
  apply (transient_failures_give_up no_login always_unavailable fresh).
  intros n. reflexivity.
Defined.

(** *** The cached token *)

Section Token.

Variable auth : nat → auth_result.
Variable hist : nat → post_result.







End Token.




Definition login_ok (n : nat) : auth_result :=
  AuthResponded 200 (Some "fresh"%string).




(** *** The rate limiter *)

(** The answered POSTs sent while the window start was [w]. *)
Definition answered_in (w : Z) (posts : list post_event) : nat :=
  length (filter (λ e, post_window e = w ∧ post_answered e = true) posts).

(** The POSTs sent during the hour that starts at [t]. *)
Definition sent_in_hour (t : Z) (posts : list post_event) : nat :=
  length (filter (λ e, t ≤ post_time e < t + 3600) posts).

(** What the specification asks: no hour, wherever it starts, sees more
    than N POSTs. *)
Definition rolling_limit (st : state) : Prop :=
  ∀ t, Z.of_nat (sent_in_hour t (hist_posts st)) ≤ RATE_LIMIT_PER_HOUR.

(** What the counter maintains: it stays within [0, N], no POST is tagged
    with a window later than the current one, the answered POSTs of the
    current window are all counted, and no window has more than N. *)
Definition window_inv (st : state) : Prop :=
  0 ≤ rate_call_count st ≤ RATE_LIMIT_PER_HOUR
  ∧ (∀ e, e ∈ hist_posts st → post_window e ≤ rate_window_start st)
  ∧ Z.of_nat (answered_in (rate_window_start st) (hist_posts st))
    ≤ rate_call_count st
  ∧ (∀ w, Z.of_nat (answered_in w (hist_posts st)) ≤ RATE_LIMIT_PER_HOUR).

Lemma answered_in_snoc w posts e :
  answered_in w (posts ++ [e])
  = (answered_in w posts
     + if decide (post_window e = w ∧ post_answered e = true) then 1 else 0)%nat.
Proof.
  unfold answered_in. rewrite filter_app, length_app. f_equal.
  rewrite filter_cons, filter_nil. by case_decide.
Qed.

Lemma answered_in_later w posts :
  (∀ e, e ∈ posts → post_window e < w) → answered_in w posts = 0%nat.
Proof.
  intros Hlt. unfold answered_in.
  induction posts as [|e posts IH]; [done|].
  rewrite filter_cons. case_decide as He.
  - specialize (Hlt e ltac:(left)). lia.
  - apply IH. intros e' He'. apply Hlt. by right.
Qed.

Lemma window_inv_sleep d st : window_inv st → window_inv (sleep d st).
Proof. done. Qed.

Lemma drain_window_start st :
  rate_window_start st + 3600 ≤ rate_window_start (drain_window st)
  ∧ rate_window_start (drain_window st) = clock (drain_window st)
  ∧ clock (drain_window st)
    = Z.max (clock st) (rate_window_start st + 3600)
  ∧ rate_call_count (drain_window st) = 0
  ∧ hist_posts (drain_window st) = hist_posts st.
Proof.
  unfold drain_window. case_bool_decide; simpl; split_and!; try done; lia.
Qed.

Lemma window_inv_drain st : window_inv st → window_inv (drain_window st).
Proof.
  intros (Hcount & Htags & _ & Hall).
  destruct (drain_window_start st) as (Hstart & _ & _ & Hzero & Hposts).
  unfold window_inv. rewrite Hzero, Hposts.
  refine (conj _ (conj _ (conj _ _))).
  - unfold RATE_LIMIT_PER_HOUR. lia.
  - intros e He. specialize (Htags e He). lia.
  - rewrite answered_in_later; [done|].
    intros e He. specialize (Htags e He). lia.
  - done.
Qed.

Lemma window_inv_wait st :
  window_inv st →
  window_inv (rate_limit_wait st)
  ∧ rate_call_count (rate_limit_wait st) < RATE_LIMIT_PER_HOUR.
Proof.
  intros Hinv. unfold rate_limit_wait. case_bool_decide as Hfull.
  - split; [by apply window_inv_drain|].
    destruct (drain_window_start st) as (_ & _ & _ & -> & _). done.
  - split; [done|lia].
Qed.

Section Limiter.

Variable auth : nat → auth_result.
Variable hist : nat → post_result.

Lemma get_auth_token_window st :
  rate_window_start (_get_auth_token auth st).2 = rate_window_start st
  ∧ rate_call_count (_get_auth_token auth st).2 = rate_call_count st
  ∧ clock (_get_auth_token auth st).2 = clock st.
Proof.
  unfold _get_auth_token. destruct (token st); [done|].
  destruct (auth (auth_posts st)) as [|status [t|]]; try done;
    by case_bool_decide.
Qed.

Lemma window_inv_get_auth_token st :
  window_inv st → window_inv (_get_auth_token auth st).2.
Proof.
  destruct (get_auth_token_window st) as (Hs & Hc & _).
  pose proof (get_auth_token_posts auth st) as Hp.
  unfold window_inv. by rewrite Hs, Hc, Hp.
Qed.

Lemma window_inv_retry_after max_retries attempt wait st :
  window_inv st → window_inv (retry_after max_retries attempt wait st).2.
Proof. unfold retry_after. by case_bool_decide. Qed.

Lemma window_inv_handle_response max_retries attempt resp st :
  window_inv st →
  window_inv (handle_response max_retries attempt resp st).2.
Proof.
  intros Hinv. unfold handle_response.
  repeat case_bool_decide; simpl; try done;
    repeat case_match; simpl; try done;
    try (by apply window_inv_retry_after); by apply window_inv_drain.
Qed.

(** An unanswered POST is logged but not counted. *)
Lemma window_inv_unanswered header st :
  window_inv st →
  window_inv
    (log_post {| post_time := clock st; post_window := rate_window_start st;
                 post_authorization := header; post_answered := false |} st).
Proof.
  intros (Hcount & Htags & Hcur & Hall). unfold window_inv; simpl.
  refine (conj _ (conj _ (conj _ _))); [done| | |].
  - intros e [He | ->%list_elem_of_singleton]%elem_of_app; [by apply Htags|].
    simpl. lia.
  - rewrite answered_in_snoc. rewrite decide_False by (simpl; intros [_ ?]; done).
    lia.
  - intros w. rewrite answered_in_snoc.
    rewrite decide_False by (simpl; intros [_ ?]; done).
    specialize (Hall w). lia.
Qed.

(** An answered POST is logged and counted, below the limit. *)
Lemma window_inv_answered header st :
  window_inv st → rate_call_count st < RATE_LIMIT_PER_HOUR →
  window_inv
    (count_call
       (log_post {| post_time := clock st;
                    post_window := rate_window_start st;
                    post_authorization := header;
                    post_answered := true |} st)).
Proof.
  intros (Hcount & Htags & Hcur & Hall) Hbelow. unfold window_inv; simpl.
  refine (conj _ (conj _ (conj _ _))); [lia| | |].
  - intros e [He | ->%list_elem_of_singleton]%elem_of_app; [by apply Htags|].
    simpl. lia.
  - rewrite answered_in_snoc. case_decide; lia.
  - intros w. rewrite answered_in_snoc. case_decide as Hw; simpl in Hw.
    + destruct Hw as [<- _]. lia.
    + specialize (Hall w). lia.
Qed.

Lemma window_inv_attempt_once max_retries attempt st :
  window_inv st →
  window_inv (attempt_once auth hist max_retries attempt st).2.
Proof.
  intros Hinv. unfold attempt_once.
  destruct (window_inv_wait st Hinv) as [Hwait Hbelow].
  pose proof (window_inv_get_auth_token _ Hwait) as Hauth.
  destruct (get_auth_token_window (rate_limit_wait st)) as (_ & Hc & _).
  destruct (_get_auth_token auth (rate_limit_wait st)) as [header st2].
  simpl in Hauth, Hc.
  destruct (hist (length (hist_posts st2))) as [|resp].
  - apply window_inv_retry_after. by apply window_inv_unanswered.
  - apply window_inv_handle_response. apply window_inv_answered; [done|lia].
Qed.

Lemma window_inv_run_attempts max_retries attempts st :
  window_inv st →
  window_inv (run_attempts auth hist max_retries attempts st).2.
Proof.
  revert st. induction attempts as [|attempt rest IH]; intros st Hinv;
    simpl; [done|].
  pose proof (window_inv_attempt_once max_retries attempt st Hinv) as Hone.
  destruct (attempt_once auth hist max_retries attempt st) as [[result|] st'];
    simpl in *; [done|]. by apply IH.
Qed.

Lemma window_inv_run_calls delays st :
  window_inv st → window_inv (run_calls auth hist delays st).
Proof.
  revert st. induction delays as [|delay delays IH]; intros st Hinv;
    simpl; [done|].
  apply IH. apply window_inv_run_attempts. by apply window_inv_sleep.
Qed.

(** The POST of an attempt is sent when the wait is over. *)
Lemma attempt_once_event max_retries attempt st :
  ∃ header answered,
    hist_posts (attempt_once auth hist max_retries attempt st).2
    = hist_posts st
      ++ [ {| post_time := clock (rate_limit_wait st);
              post_window := rate_window_start (rate_limit_wait st);
              post_authorization := header;
              post_answered := answered |} ].
Proof.
  unfold attempt_once.
  pose proof (get_auth_token_posts auth (rate_limit_wait st)) as Hp.
  destruct (get_auth_token_window (rate_limit_wait st)) as (Hs & _ & Hc).
  destruct (_get_auth_token auth (rate_limit_wait st)) as [header st2].
  simpl in Hp, Hs, Hc.
  destruct (rate_limit_wait_posts st) as (Hwait & _ & _).
  destruct (hist (length (hist_posts st2))) as [|resp].
  - exists header, false. rewrite retry_after_posts. simpl.
    by rewrite Hp, Hs, Hc, Hwait.
  - exists header, true. rewrite handle_response_posts. simpl.
    by rewrite Hp, Hs, Hc, Hwait.
Qed.

End Limiter.

(** A service that answers every request, and a caller sending one
    request per second from the tenth minute on: 3001 calls. *)
Definition always_ok (n : nat) : post_result :=
  Responded {| status_code := 200; text := "[]";
               json_body := Some (JsonList []) |}.

Definition steady_calls : list Z := 600 :: replicate 3000 1.

Lemma steady_calls_sent :
  sent_in_hour 600
    (hist_posts (run_calls login_ok always_ok steady_calls fresh))
  = 3001%nat.
Proof. by vm_compute. Qed.

(** C2 as stated fails: at one request per second, the requests of
    seconds 600 to 3600 are all sent, 3001 of them within one hour; the
    counter reaches 3000 only when the first window is over and is then
    reset without any wait. *)
Lemma rolling_hour_exceeded :
  ¬ rolling_limit (run_calls login_ok always_ok steady_calls fresh).
Proof.
  intros Hlimit. specialize (Hlimit 600).
  rewrite steady_calls_sent in Hlimit. unfold RATE_LIMIT_PER_HOUR in Hlimit.
  lia.
Qed.

Lemma window_inv_fresh : window_inv fresh.
Proof.
  unfold window_inv, fresh, RATE_LIMIT_PER_HOUR; simpl.
  refine (conj _ (conj _ (conj _ _))); try done.
  intros e He. by apply elem_of_nil in He.
Qed.

(** C2, amended. The limiter is a counter over fixed windows: for every
    sequence of calls and every timing, no more than N answered requests
    are sent under one window start, and the counter stays within [0, N];
    when the counter has reached N, the next attempt waits until one hour
    after the window start (not at all if that hour is over), then starts
    a new window at that instant with the counter at 0, and sends its
    request then; below N the attempt does not wait. *)
Theorem fixed_window_limit (auth : nat → auth_result)
    (hist : nat → post_result) (delays : list Z) (st : state) :
  window_inv st →
  let st' := run_calls auth hist delays st in
  (∀ w, Z.of_nat (answered_in w (hist_posts st')) ≤ RATE_LIMIT_PER_HOUR)
  ∧ 0 ≤ rate_call_count st' ≤ RATE_LIMIT_PER_HOUR
  ∧ (∀ s, RATE_LIMIT_PER_HOUR ≤ rate_call_count s →
          clock (rate_limit_wait s)
          = Z.max (clock s) (rate_window_start s + 3600)
          ∧ rate_window_start (rate_limit_wait s) = clock (rate_limit_wait s)
          ∧ rate_call_count (rate_limit_wait s) = 0)
  ∧ (∀ s, rate_call_count s < RATE_LIMIT_PER_HOUR → rate_limit_wait s = s)
  ∧ (∀ max_retries attempt s,
       ∃ header answered,
         hist_posts (attempt_once auth hist max_retries attempt s).2
         = hist_posts s
           ++ [ {| post_time := clock (rate_limit_wait s);
                   post_window := rate_window_start (rate_limit_wait s);
                   post_authorization := header;
                   post_answered := answered |} ]).
Proof.
  intros Hinv st'.
  destruct (window_inv_run_calls auth hist delays st Hinv)
    as (Hcount & _ & _ & Hall).
  fold st' in Hcount, Hall.
  refine (conj Hall (conj Hcount (conj _ (conj _ _)))).
  - intros s Hfull. unfold rate_limit_wait.
    rewrite bool_decide_true by done.
    destruct (drain_window_start s) as (_ & Hstart & Hclock & Hzero & _).
    done.
  - intros s Hbelow. unfold rate_limit_wait.
    by rewrite bool_decide_false by lia.
  - apply attempt_once_event.
Qed.

Lemma fixed_window_limit_witness :
  window_inv fresh
  ∧ ∀ w, Z.of_nat
           (answered_in w
              (hist_posts (run_calls login_ok always_ok [5; 7] fresh)))
         ≤ RATE_LIMIT_PER_HOUR.
Proof.
  split; [apply window_inv_fresh|].
  apply (fixed_window_limit login_ok always_ok [5; 7] fresh).
  apply window_inv_fresh.
Defined.

End Client.

(** ** More on the gap analysis: full and empty coverage, and the day
    counts of [display_gap_analysis] *)

Module Coverage.

Import Gap.

(** [total_days = (to_date - from_date).days + 1] *)
Definition total_days (from_date to_date : Z) : Z := to_date - from_date + 1.

(** [coverage_days = total_days - len(missing_dates)] *)
Definition coverage_days (from_date to_date : Z) (missing : list Z) : Z :=
  total_days from_date to_date - Z.of_nat (length missing).

Lemma seqZ_ascending (m : Z) (n : nat) :
  StronglySorted Z.lt (seqZ m (Z.of_nat n)).
Proof.
  revert m. induction n as [|n IH]; intros m.
  - rewrite seqZ_nil by lia. constructor.
  - rewrite seqZ_cons by lia.
    replace (Z.pred (Z.of_nat (S n))) with (Z.of_nat n) by lia.
    constructor; [apply IH|].
    apply Forall_forall. intros d Hd%elem_of_seqZ. lia.
Qed.

Lemma ascending_unique (l1 l2 : list Z) :
  StronglySorted Z.lt l1 → StronglySorted Z.lt l2 →
  (∀ d, d ∈ l1 ↔ d ∈ l2) → l1 = l2.
Proof.
  intros H1 H2 Hel.
  assert (∀ l, StronglySorted Z.lt l → NoDup l) as Hnodup.
  { induction 1 as [|x l Hs IH Hall]; constructor; [|done].
    rewrite Forall_forall in Hall. intros Hx%Hall. lia. }
  apply (StronglySorted_unique_strong Z.lt); [intros; lia|done|done|].
  apply NoDup_Permutation; auto.
Qed.

(** Without any local date the missing days are the whole window. *)
Lemma missing_dates_no_coverage from_date to_date :
  missing_dates from_date to_date ∅
  = seqZ from_date (to_date - from_date + 1).
Proof.
  apply ascending_unique.
  - apply sorted_ascending.
  - destruct (decide (0 ≤ to_date - from_date + 1)) as [Hn|Hn].
    + rewrite <- (Z2Nat.id (to_date - from_date + 1)) by done.
      apply seqZ_ascending.
    + rewrite seqZ_nil by lia. constructor.
  - intros d. rewrite elem_of_missing_dates, elem_of_seqZ. set_solver by lia.
Qed.

(** The loop over consecutive days only moves the end of the open range. *)
Lemma fold_range_step_consecutive (n : nat) ranges start end_ :
  fold_left range_step (seqZ (end_ + 1) (Z.of_nat n)) (ranges, start, end_)
  = (ranges, start, end_ + Z.of_nat n).
Proof.
  revert end_. induction n as [|n IH]; intros end_.
  - rewrite seqZ_nil by lia. simpl. f_equal. lia.
  - rewrite seqZ_cons by lia.
    replace (Z.pred (Z.of_nat (S n))) with (Z.of_nat n) by lia.
    cbn [fold_left range_step]. rewrite decide_True by lia.
    replace (Z.succ (end_ + 1)) with ((end_ + 1) + 1) by lia.
    rewrite IH. f_equal. lia.
Qed.

Lemma group_ranges_nil_iff (missing : list Z) :
  group_ranges missing = [] ↔ missing = [].
Proof.
  split; [|by intros ->].
  destruct missing as [|d0 rest]; [done|]. unfold group_ranges.
  destruct (fold_left range_step rest ([], d0, d0)) as [[ranges s] e].
  simpl. by destruct ranges.
Qed.

Lemma size_all_dates from_date to_date :
  from_date ≤ to_date + 1 →
  Z.of_nat (size (all_dates from_date to_date)) = to_date - from_date + 1.
Proof.
  intros Hle.
  assert (all_dates from_date to_date
          = list_to_set (seqZ from_date (to_date - from_date + 1))) as ->.
  { apply set_eq. intros d.
    rewrite elem_of_all_dates, elem_of_list_to_set, elem_of_seqZ. lia. }
  rewrite size_list_to_set by apply NoDup_seqZ.
  rewrite length_seqZ. lia.
Qed.

Lemma length_sorted (s : gset Z) : length (sorted s) = size s.
Proof. unfold sorted. by rewrite merge_sort_Permutation. Qed.

(** X1. A store without any local date is fetched with one range, the
    whole window. *)
Theorem no_coverage_one_range (from_date to_date : Z) :
  from_date ≤ to_date →
  group_ranges (missing_dates from_date to_date ∅) = [(from_date, to_date)].
Proof.
  intros Hle. rewrite missing_dates_no_coverage.
  rewrite seqZ_cons by lia. unfold group_ranges.
  replace (Z.succ from_date) with (from_date + 1) by lia.
  replace (Z.pred (to_date - from_date + 1))
    with (Z.of_nat (Z.to_nat (to_date - from_date))) by lia.
  rewrite fold_range_step_consecutive. simpl. do 2 f_equal. lia.
Qed.

Lemma no_coverage_one_range_witness :
  group_ranges (missing_dates 739221 739230 ∅) = [(739221, 739230)].
Proof. apply (no_coverage_one_range 739221 739230). lia. Defined.

(** X2. No range is requested for a store exactly when its coverage holds
    every day of the window; with [to_date < from_date] that is always so. *)
Theorem no_range_iff_covered (from_date to_date : Z) (store_dates : gset Z) :
  (group_ranges (missing_dates from_date to_date store_dates) = []
   ↔ ∀ d, from_date ≤ d ≤ to_date → d ∈ store_dates)
  ∧ (to_date < from_date →
     group_ranges (missing_dates from_date to_date store_dates) = []).
Proof.
  assert (group_ranges (missing_dates from_date to_date store_dates) = []
          ↔ ∀ d, from_date ≤ d ≤ to_date → d ∈ store_dates) as Hiff.
  { rewrite group_ranges_nil_iff. split.
    - intros Hnil d Hd. destruct (decide (d ∈ store_dates)) as [|Hout]; [done|].
      assert (d ∈ missing_dates from_date to_date store_dates) as Hin
        by by apply elem_of_missing_dates.
      rewrite Hnil in Hin. by apply elem_of_nil in Hin.
    - intros Hall.
      destruct (missing_dates from_date to_date store_dates) as [|d l] eqn:Hm;
        [done|].
      assert (d ∈ missing_dates from_date to_date store_dates) as Hin
        by (rewrite Hm; left).
      apply elem_of_missing_dates in Hin as [Hd Hout].
      destruct Hout. by apply Hall. }
  split; [done|]. intros Hlt. apply Hiff. intros d Hd. lia.
Qed.

Lemma no_range_iff_covered_witness :
  group_ranges (missing_dates 739230 739221 {[739225]}) = [].
Proof. apply (no_range_iff_covered 739230 739221 {[739225]}). lia. Defined.

(** X3. The coverage count shown per store, [total_days] minus the number
    of missing dates, is the number of days of the window that the
    coverage holds; it lies between 0 and [total_days]. *)
Theorem coverage_days_counts_covered (from_date to_date : Z)
    (store_dates : gset Z) :
  from_date ≤ to_date + 1 →
  coverage_days from_date to_date
    (missing_dates from_date to_date store_dates)
  = Z.of_nat (size (all_dates from_date to_date ∩ store_dates))
  ∧ 0 ≤ coverage_days from_date to_date
          (missing_dates from_date to_date store_dates)
      ≤ total_days from_date to_date.
Proof.
  intros Hle. unfold coverage_days, total_days, missing_dates.
  rewrite length_sorted, size_difference_alt.
  pose proof (size_all_dates from_date to_date Hle) as Hsize.
  assert (size (all_dates from_date to_date ∩ store_dates)
          ≤ size (all_dates from_date to_date))%nat as Hsub
    by (apply subseteq_size; set_solver).
  lia.
Qed.

Lemma coverage_days_counts_covered_witness :
  coverage_days 739221 739230
    (missing_dates 739221 739230 {[739221; 739225; 739300]})
  = Z.of_nat (size (all_dates 739221 739230 ∩ {[739221; 739225; 739300]}))
  ∧ 0 ≤ coverage_days 739221 739230
          (missing_dates 739221 739230 {[739221; 739225; 739300]})
      ≤ total_days 739221 739230.
Proof.
  apply (coverage_days_counts_covered 739221 739230
           {[739221; 739225; 739300]}).
  lia.
Defined.

End Coverage.

(** ** More on the local data: the coverage calendar against the rates it
    is built from, and against the dates requested from the service *)

Module LocalData.

Import Records.

(** For one store, the two results of the reader agree: both have an entry
    exactly for a requested store, and the calendar holds the dates of the
    store's rates. *)
Definition store_ok (store_ids : list Z) (acc : coverage) (s : Z) : Prop :=
  match acc.1 !! s, acc.2 !! s with
  | Some rates, Some dates =>
      s ∈ store_ids
      ∧ ∀ d, d ∈ dates ↔ ∃ rate, rate ∈ rates ∧ date_collected rate = d
  | None, None => s ∉ store_ids
  | _, _ => False
  end.

Lemma lookup_initial_dict {A} (x : A) (store_ids : list Z) (s : Z) :
  (list_to_map ((λ sid, (sid, x)) <$> store_ids) : gmap Z A) !! s
  = if decide (s ∈ store_ids) then Some x else None.
Proof.
  induction store_ids as [|sid store_ids IH].
  - rewrite fmap_nil, list_to_map_nil, lookup_empty.
    case_decide as Hin; [by apply elem_of_nil in Hin|done].
  - rewrite fmap_cons, list_to_map_cons.
    destruct (decide (sid = s)) as [->|Hne].
    + rewrite lookup_insert_eq.
      destruct (decide (s ∈ s :: store_ids)) as [|Hout]; [done|].
      destruct Hout. by left.
    + rewrite lookup_insert_ne by done. rewrite IH.
      destruct (decide (s ∈ store_ids)) as [Hin|Hout],
               (decide (s ∈ sid :: store_ids)) as [Hin'|Hout']; try done.
      * destruct Hout'. by right.
      * apply elem_of_cons in Hin' as [->|?]; done.
Qed.

Lemma store_ok_add_row store_ids acc row s :
  store_ok store_ids acc s → store_ok store_ids (add_row acc row) s.
Proof.
  unfold store_ok, add_row. simpl. rewrite !lookup_alter.
  case_decide as Hs; [subst s|done].
  destruct (acc.1 !! Store_ID row) as [rates|],
           (acc.2 !! Store_ID row) as [dates|]; simpl; try done.
  intros [Hin Hdates]. split; [done|]. intros d.
  rewrite elem_of_union, elem_of_singleton, Hdates. split.
  - intros [->|(rate & Hrate & Hd)].
    + exists (row_to_rate row). split; [|done].
      apply elem_of_app. right. by apply list_elem_of_singleton.
    + exists rate. split; [|done]. apply elem_of_app. by left.
  - intros (rate & [Hrate| ->%list_elem_of_singleton]%elem_of_app & Hd).
    + right. eauto.
    + by left.
Qed.

Lemma store_ok_add_table store_ids ids from_date to_date acc table s :
  store_ok store_ids acc s →
  store_ok store_ids (add_table ids from_date to_date acc table) s.
Proof.
  destruct table as [rows|]; simpl; [|done].
  generalize (filter (selected ids from_date to_date) rows). intros l.
  revert acc. induction l as [|row l IH]; intros acc Hacc; simpl; [done|].
  apply IH. by apply store_ok_add_row.
Qed.

Lemma store_ok_get_trailing db store_ids from_date to_date s :
  store_ok store_ids
    (get_trailing_12_month_rates db store_ids from_date to_date) s.
Proof.
  unfold get_trailing_12_month_rates.
  destruct store_ids as [|sid0 store_ids].
  - unfold store_ok. simpl. rewrite !lookup_empty. apply not_elem_of_nil.
  - generalize (tables_to_query db from_date). intros tables.
    set (ids := sid0 :: store_ids).
    assert (store_ok ids
              (list_to_map ((λ sid, (sid, [])) <$> ids),
               list_to_map ((λ sid, (sid, ∅)) <$> ids)) s) as Hinit.
    { unfold store_ok. cbn [fst snd]. rewrite !lookup_initial_dict.
      case_decide; [|done]. split; [done|]. intros d. split.
      - by intros ?%not_elem_of_empty.
      - by intros (rate & ?%elem_of_nil & _). }
    revert Hinit.
    generalize (list_to_map ((λ sid, (sid, [])) <$> ids) : gmap Z (list db_rate),
                list_to_map ((λ sid, (sid, ∅)) <$> ids) : gmap Z (gset Z)).
    induction tables as [|table tables IH]; intros acc Hacc; simpl; [done|].
    apply IH. by apply store_ok_add_table.
Qed.

(** X4. The reader returns an entry in both dictionaries exactly for the
    requested stores, and the coverage calendar of a store holds exactly
    the dates of the rates returned for it. *)
Theorem calendar_matches_rates (db : database) (store_ids : list Z)
    (from_date to_date s : Z) :
  let cov := get_trailing_12_month_rates db store_ids from_date to_date in
  (is_Some (cov.1 !! s) ↔ s ∈ store_ids)
  ∧ (is_Some (cov.2 !! s) ↔ s ∈ store_ids)
  ∧ ∀ d, d ∈ default ∅ (cov.2 !! s)
         ↔ ∃ rate, rate ∈ default [] (cov.1 !! s) ∧ date_collected rate = d.
Proof.
  intros cov.
  pose proof (store_ok_get_trailing db store_ids from_date to_date s) as Hok.
  fold cov in Hok. unfold store_ok in Hok.
  destruct (cov.1 !! s) as [rates|], (cov.2 !! s) as [dates|]; try done.
  - destruct Hok as [Hin Hdates]. split_and!; [by split|by split|done].
  - split_and!.
    + split; [by intros [? ?]|done].
    + split; [by intros [? ?]|done].
    + intros d. simpl. split; [by intros ?%not_elem_of_empty|].
      by intros (rate & ?%elem_of_nil & _).
Qed.

(** X5. A remote record dated on a day reported missing for its store
    never has the deduplication key of a local record: as long as the
    service answers with the days it was asked for, the two sources cannot
    collide. *)
Theorem requested_days_never_collide (db : database) (store_ids : list Z)
    (from_date to_date : Z) (rec_db rec_api : rate_record) (d : Z) :
  let cov := get_trailing_12_month_rates db store_ids from_date to_date in
  rec_db ∈ convert_db_rates_to_records cov.1 →
  date rec_api = Some d →
  d ∈ default []
        (Gap.analyze_date_gaps cov.2 from_date to_date !! store_id rec_api) →
  dedup_key rec_db ≠ dedup_key rec_api.
Proof.
  intros cov
    (sid & rates & rate & Hlook & Hrate & ->)%elem_of_convert_db_rates_to_records
    Hdate Hmissing Hkey.
  unfold dedup_key in Hkey. simpl in Hkey. rewrite Hdate in Hkey.
  injection Hkey as Hsid Hd _ _. subst d.
  rewrite <- Hsid in Hmissing. unfold Gap.analyze_date_gaps in Hmissing.
  rewrite lookup_fmap in Hmissing.
  pose proof (store_ok_get_trailing db store_ids from_date to_date sid) as Hok.
  fold cov in Hok. unfold store_ok in Hok. rewrite Hlook in Hok.
  destruct (cov.2 !! sid) as [dates|]; [|done]. simpl in Hmissing.
  destruct Hok as [_ Hdates].
  apply Gap.elem_of_missing_dates in Hmissing as [_ Hout].
  apply Hout, Hdates. eauto.
Qed.

Lemma requested_days_never_collide_witness :
  Forall
    (λ rec_db,
       dedup_key rec_db
       ≠ dedup_key
           (api_record {| storeID := 1; unitType := [] |}
              {| type := "Unit"; unit_size := "10x10"; price := [] |}
              {| price_date := Some 739257%Z; regular := None;
                 online := None |}))
    example_db_records.
Proof.
  apply Forall_forall. intros rec_db Hrec.
  apply (requested_days_never_collide example_db [1%Z] 739221 739260
           rec_db _ 739257 Hrec); [reflexivity|].
  apply (bool_decide_unpack _). by vm_compute.
Defined.

End LocalData.

(** ** Derived rankings: [calculate_age_ranking],
    [calculate_size_ranking] and their use in [collect_store_rankings] *)

Module Rankings.

Definition calculate_age_ranking (year_built current_year : Z) : Z :=
  let age_years := current_year - year_built in
  if bool_decide (age_years < 0) then 10
  else if bool_decide (age_years ≤ 10) then 10
  else if bool_decide (age_years ≤ 20) then 9
  else if bool_decide (age_years ≤ 30) then 8
  else if bool_decide (age_years ≤ 40) then 7
  else if bool_decide (age_years ≤ 50) then 6
  else if bool_decide (age_years ≤ 60) then 5
  else if bool_decide (age_years ≤ 70) then 4
  else if bool_decide (age_years ≤ 80) then 3
  else if bool_decide (age_years ≤ 90) then 2
  else 1.

Definition calculate_size_ranking (square_footage : Qc) : Z :=
  if bool_decide (square_footage ≤ Z2Qc 50000)%Qc then 10
  else if bool_decide (square_footage ≤ Z2Qc 60000)%Qc then 9
  else if bool_decide (square_footage ≤ Z2Qc 70000)%Qc then 8
  else if bool_decide (square_footage ≤ Z2Qc 80000)%Qc then 7
  else if bool_decide (square_footage ≤ Z2Qc 90000)%Qc then 6
  else if bool_decide (square_footage ≤ Z2Qc 100000)%Qc then 5
  else 4.

(** The head of an iteration of [collect_store_rankings], up to the two
    [print] calls: [age_ranking] and [size_ranking] from the metadata of
    the store. A missing or zero value is falsy and gives the fallback.
    The second [print] formats [sf] with [:,.0f], which raises on [None]:
    that is the result [None] here. *)
Definition derived_rankings (year_built : option Z) (sf : option Qc)
    (current_year : Z) : option (Z * Z) :=
  let age_ranking :=
    match year_built with
    | Some y => if bool_decide (y ≠ 0)
                then calculate_age_ranking y current_year else 5
    | None => 5
    end in
  let size_ranking :=
    match sf with
    | Some v => if bool_decide (v ≠ 0%Qc)
                then calculate_size_ranking v else 7
    | None => 7
    end in
  match sf with
  | Some _ => Some (age_ranking, size_ranking)
  | None => None
  end.

(** X6. The age ranking lies in 1..10, a newer building never ranks
    lower, and a building of positive age loses one rank per started
    decade after the first, down to 1. *)
Theorem age_ranking_by_decade (year_built year_built' current_year : Z) :
  1 ≤ calculate_age_ranking year_built current_year ≤ 10
  ∧ (year_built ≤ year_built' →
     calculate_age_ranking year_built current_year
     ≤ calculate_age_ranking year_built' current_year)
  ∧ (year_built < current_year →
     calculate_age_ranking year_built current_year
     = Z.max 1 (10 - (current_year - year_built - 1) / 10))
  ∧ (current_year ≤ year_built →
     calculate_age_ranking year_built current_year = 10).
Proof.
  unfold calculate_age_ranking. split_and!.
  - repeat case_bool_decide; lia.
  - repeat case_bool_decide; lia.
  - intros Hle. repeat case_bool_decide; lia.
  - intros Hpos. repeat case_bool_decide; Z.div_mod_to_equations; lia.
  - intros Hnew. repeat case_bool_decide; lia.
Qed.

Lemma age_ranking_by_decade_witness :
  calculate_age_ranking 1990 2025 ≤ calculate_age_ranking 2001 2025
  ∧ calculate_age_ranking 1990 2025
    = Z.max 1 (10 - (2025 - 1990 - 1) / 10).
Proof.
  split.
  - apply (age_ranking_by_decade 1990 2001 2025). lia.
  - apply (age_ranking_by_decade 1990 2001 2025). lia.
Defined.

Lemma size_ranking_bounds sf : 4 ≤ calculate_size_ranking sf ≤ 10.
Proof. unfold calculate_size_ranking. repeat case_bool_decide; lia. Qed.

Lemma age_ranking_bounds y c : 1 ≤ calculate_age_ranking y c ≤ 10.
Proof. unfold calculate_age_ranking. repeat case_bool_decide; lia. Qed.

(** Closes a case in which the larger facility met a threshold that the
    smaller one missed. *)
Ltac threshold_clash :=
  exfalso;
  match goal with
  | Hle : (?a ≤ ?b)%Qc, Hmiss : ¬ (?a ≤ ?t)%Qc, Hmet : (?b ≤ ?u)%Qc |- _ =>
      apply Hmiss; apply (Qcle_trans _ b); [exact Hle|];
      apply (Qcle_trans _ u); [exact Hmet|]; by vm_compute
  end.

(** X7. The size ranking lies in 4..10 and a larger facility never ranks
    higher. *)
Theorem size_ranking_antitone (sf sf' : Qc) :
  4 ≤ calculate_size_ranking sf ≤ 10
  ∧ ((sf ≤ sf')%Qc →
     calculate_size_ranking sf' ≤ calculate_size_ranking sf).
Proof.
  split; [apply size_ranking_bounds|].
  intros Hle. unfold calculate_size_ranking.
  repeat case_bool_decide; try lia; threshold_clash.
Qed.

Lemma size_ranking_antitone_witness :
  calculate_size_ranking (Z2Qc 75000) ≤ calculate_size_ranking (Z2Qc 52000).
Proof.
  apply (size_ranking_antitone (Z2Qc 52000) (Z2Qc 75000)). by vm_compute.
Defined.

(** X8. In [collect_store_rankings] a store without square footage makes
    the ranking step raise; with a square footage the derived ranks are
    within 1..10 and 4..10, a missing or zero year gives age rank 5 and a
    zero square footage gives size rank 7. *)
Theorem derived_rankings_fallbacks (year_built : option Z) (sf : Qc)
    (current_year : Z) :
  derived_rankings year_built None current_year = None
  ∧ (∃ age size,
       derived_rankings year_built (Some sf) current_year = Some (age, size)
       ∧ 1 ≤ age ≤ 10 ∧ 4 ≤ size ≤ 10
       ∧ (year_built = None ∨ year_built = Some 0 → age = 5)
       ∧ (sf = 0%Qc → size = 7)).
Proof.
  split; [done|]. unfold derived_rankings. eexists _, _.
  split; [done|]. split_and!.
  - destruct year_built as [y|]; [|lia].
    case_bool_decide; [apply age_ranking_bounds|lia].
  - destruct year_built as [y|]; [|lia].
    case_bool_decide; [apply age_ranking_bounds|lia].
  - case_bool_decide; [apply size_ranking_bounds|lia].
  - case_bool_decide; [apply size_ranking_bounds|lia].
  - intros [->| ->]; [done|]. by rewrite bool_decide_false by (intros H; by apply H).
  - intros ->. by rewrite bool_decide_false by (intros H; by apply H).
Qed.

Lemma derived_rankings_fallbacks_witness :
  ∃ age size,
    derived_rankings (Some 0) (Some 0%Qc) 2025 = Some (age, size)
    ∧ age = 5 ∧ size = 7.
Proof.
  destruct (derived_rankings_fallbacks (Some 0) 0%Qc 2025)
    as (_ & age & size & Heq & _ & _ & Hage & Hsize).
  exists age, size. split; [done|].
  split; [apply Hage; by right | by apply Hsize].
Defined.

End Rankings.

(** ** More on the adjustment: symmetry, bounds, foreign categories and
    the adjustment table *)

Module ScorerFacts.

Import Scorer.
Local Open Scope Qc_scope.

Lemma Z2Qc_sub (x y : Z) : Z2Qc (x - y) = Z2Qc x - Z2Qc y.
Proof.
  apply Qc_is_canon. unfold Z2Qc, Qcminus, Qcplus, Qcopp, Q2Qc. simpl.
  rewrite !Qred_correct. unfold Z.sub.
  rewrite inject_Z_plus, inject_Z_opp. reflexivity.
Qed.

Lemma Z2Qc_le (x y : Z) : (x ≤ y)%Z → Z2Qc x ≤ Z2Qc y.
Proof.
  intros Hle. unfold Z2Qc, Qcle. cbn [this Q2Qc].
  rewrite !Qred_correct. by rewrite <- Zle_Qle.
Qed.

Lemma get_rank_insert_ne (m : gmap string Z) (c k : string) (v : Z) :
  c ≠ k → get_rank (<[c:=v]> m) k = get_rank m k.
Proof. intros Hne. unfold get_rank. by rewrite lookup_insert_ne. Qed.

(** The rank part of the adjustment: no flat factors. *)
Definition rank_part (comparator subject : gmap string Z) : Qc :=
  calculate_store_adjustment comparator subject [].

Lemma rank_part_formula comparator subject :
  rank_part comparator subject
  = term (Q2Qc (1 # 100)) "Location" comparator subject
    + term (Q2Qc (1 # 100)) "Age" comparator subject
    + term (Q2Qc (5 # 1000)) "Accessibility" comparator subject
    + term (Q2Qc (5 # 1000)) "VPD" comparator subject
    + term (Q2Qc (5 # 1000)) "Visibility & Signage" comparator subject
    + term (Q2Qc (1 # 100)) "Brand" comparator subject
    + term (Q2Qc (1 # 100)) "Quality" comparator subject
    + term (Q2Qc (1 # 100)) "Size" comparator subject.
Proof.
  unfold rank_part. rewrite calculate_store_adjustment_formula.
  unfold adjustment_formula. simpl. ring.
Qed.

(** X9. The adjustment is its rank part plus the sum of the flat factors;
    the rank part changes sign when the two stores are swapped and adds
    up along a chain of comparisons. *)
Theorem adjustment_rank_part (a b c : gmap string Z)
    (factors : list (string * Qc)) :
  calculate_store_adjustment a b factors
    = rank_part a b + sum_Qc (factors.*2)
  ∧ rank_part b a = - rank_part a b
  ∧ rank_part a c = rank_part a b + rank_part b c.
Proof.
  split_and!.
  - rewrite rank_part_formula, calculate_store_adjustment_formula.
    unfold adjustment_formula. ring.
  - rewrite !rank_part_formula. unfold term. rewrite !Z2Qc_sub. ring.
  - rewrite !rank_part_formula. unfold term. rewrite !Z2Qc_sub. ring.
Qed.

(** A ranking map as the collection step builds it: ranks from 1 to 10. *)
Definition ranks_valid (m : gmap string Z) : Prop :=
  ∀ c v, m !! c = Some v → (1 ≤ v ≤ 10)%Z.

Lemma get_rank_valid m c : ranks_valid m → (1 ≤ get_rank m c ≤ 10)%Z.
Proof.
  intros Hm. unfold get_rank. destruct (m !! c) as [v|] eqn:Hc; simpl.
  - by apply (Hm c).
  - lia.
Qed.

Lemma term_bounds w c a b :
  0 ≤ w → ranks_valid a → ranks_valid b →
  Z2Qc (-9) * w ≤ term w c a b ∧ term w c a b ≤ Z2Qc 9 * w.
Proof.
  intros Hw Ha Hb. unfold term.
  pose proof (get_rank_valid a c Ha). pose proof (get_rank_valid b c Hb).
  rewrite (Qcmult_comm w). split.
  - apply Qcmult_le_compat_r; [|done]. apply Z2Qc_le. lia.
  - apply Qcmult_le_compat_r; [|done]. apply Z2Qc_le. lia.
Qed.

(** X10. With ranks from 1 to 10 on both sides, the rank part of the
    adjustment stays within 58.5 percent either way. *)
Theorem rank_part_bounded (a b : gmap string Z) :
  ranks_valid a → ranks_valid b →
  Q2Qc (-585 # 1000) ≤ rank_part a b ∧ rank_part a b ≤ Q2Qc (585 # 1000).
Proof.
  intros Ha Hb. rewrite rank_part_formula.
  assert (0 ≤ Q2Qc (1 # 100)) as H1 by by vm_compute.
  assert (0 ≤ Q2Qc (5 # 1000)) as H5 by by vm_compute.
  split.
  - replace (Q2Qc (-585 # 1000))
      with (Z2Qc (-9) * Q2Qc (1 # 100) + Z2Qc (-9) * Q2Qc (1 # 100)
            + Z2Qc (-9) * Q2Qc (5 # 1000) + Z2Qc (-9) * Q2Qc (5 # 1000)
            + Z2Qc (-9) * Q2Qc (5 # 1000) + Z2Qc (-9) * Q2Qc (1 # 100)
            + Z2Qc (-9) * Q2Qc (1 # 100) + Z2Qc (-9) * Q2Qc (1 # 100))
      by (apply Qc_is_canon; by vm_compute).
    do 7 (apply Qcplus_le_compat;
          [|by apply (λ w c Hw, proj1 (term_bounds w c a b Hw Ha Hb))]).
    by apply (λ w c Hw, proj1 (term_bounds w c a b Hw Ha Hb)).
  - replace (Q2Qc (585 # 1000))
      with (Z2Qc 9 * Q2Qc (1 # 100) + Z2Qc 9 * Q2Qc (1 # 100)
            + Z2Qc 9 * Q2Qc (5 # 1000) + Z2Qc 9 * Q2Qc (5 # 1000)
            + Z2Qc 9 * Q2Qc (5 # 1000) + Z2Qc 9 * Q2Qc (1 # 100)
            + Z2Qc 9 * Q2Qc (1 # 100) + Z2Qc 9 * Q2Qc (1 # 100))
      by (apply Qc_is_canon; by vm_compute).
    do 7 (apply Qcplus_le_compat;
          [|by apply (λ w c Hw, proj2 (term_bounds w c a b Hw Ha Hb))]).
    by apply (λ w c Hw, proj2 (term_bounds w c a b Hw Ha Hb)).
Qed.

Lemma all_five_valid : ranks_valid all_five.
Proof.
  intros c v Hc%elem_of_list_to_map_2.
  repeat (apply elem_of_cons in Hc as [[= -> ->]|Hc]; [lia|]).
  by apply elem_of_nil in Hc.
Qed.

Lemma rank_part_bounded_witness :
  Q2Qc (-585 # 1000) ≤ rank_part all_five all_five
  ∧ rank_part all_five all_five ≤ Q2Qc (585 # 1000).
Proof.
  apply (rank_part_bounded all_five all_five); apply all_five_valid.
Defined.

(** X11. A rank stored under a name that is not one of the eight
    categories has no effect on the adjustment, on either side. *)
Theorem foreign_category_ignored (a b : gmap string Z)
    (factors : list (string * Qc)) (c : string) (v : Z) :
  c ∉ weights.*1 →
  calculate_store_adjustment (<[c:=v]> a) b factors
    = calculate_store_adjustment a b factors
  ∧ calculate_store_adjustment a (<[c:=v]> b) factors
    = calculate_store_adjustment a b factors.
Proof.
  intros Hc.
  assert (∀ k, k ∈ weights.*1 → c ≠ k) as Hne by (intros k Hk ->; done).
  rewrite !calculate_store_adjustment_formula.
  unfold adjustment_formula, term.
  rewrite !get_rank_insert_ne
    by (apply Hne; apply (bool_decide_unpack _); by vm_compute).
  done.
Qed.

Lemma foreign_category_ignored_witness :
  calculate_store_adjustment (<["Parking"%string := 9%Z]> all_five)
    example_subject example_factors
  = calculate_store_adjustment all_five example_subject example_factors
  ∧ calculate_store_adjustment all_five
      (<["Parking"%string := 9%Z]> example_subject) example_factors
    = calculate_store_adjustment all_five example_subject example_factors.
Proof.
  apply (foreign_category_ignored all_five example_subject example_factors
           "Parking" 9).
  apply (bool_decide_unpack _). by vm_compute.
Defined.

Lemma store_adjustments_fold_lookup (subject : Z)
    (rankings : gmap Z (gmap string Z)) (subject_rankings : gmap string Z)
    (factors : list (string * Qc)) (stores : list Z)
    (adjustments : gmap Z Qc) (sid : Z) :
  fold_left
    (λ (adjustments : gmap Z Qc) store_id,
       if decide (store_id = subject)
       then <[store_id := 0]> adjustments
       else
         let store_rankings := default ∅ (rankings !! store_id) in
         <[store_id :=
             calculate_store_adjustment store_rankings
               subject_rankings factors]> adjustments)
    stores adjustments !! sid
  = if decide (sid ∈ stores)
    then Some (if decide (sid = subject) then 0
               else calculate_store_adjustment
                      (default ∅ (rankings !! sid)) subject_rankings factors)
    else adjustments !! sid.
Proof.
  revert adjustments.
  induction stores as [|store_id stores IH]; intros adjustments.
  - simpl. destruct (decide (sid ∈ [])) as [Hin|]; [|done].
    by apply elem_of_nil in Hin.
  - cbn [fold_left]. rewrite IH.
    destruct (decide (sid ∈ stores)) as [Hin|Hout].
    + destruct (decide (sid ∈ store_id :: stores)) as [|Hout']; [done|].
      destruct Hout'. by right.
    + destruct (decide (sid = store_id)) as [->|Hne].
      * destruct (decide (store_id ∈ store_id :: stores)) as [|Hout'];
          [|destruct Hout'; by left].
        destruct (decide (store_id = subject)); by rewrite lookup_insert_eq.
      * destruct (decide (sid ∈ store_id :: stores)) as [Hin'|];
          [apply elem_of_cons in Hin' as [?|?]; done|].
        destruct (decide (store_id = subject));
          by rewrite lookup_insert_ne.
Qed.

(** X12. The adjustment table of the grouped report has an entry exactly
    for the selected stores; the entry of every store other than the
    subject is the scorer's value against the subject's rankings. An
    empty selection raises. *)
Theorem adjustment_table_entries (subject : Z) (others : list Z)
    (rankings : gmap Z (gmap string Z)) (factors : list (string * Qc)) :
  store_adjustments [] rankings factors = None
  ∧ ∃ table,
      store_adjustments (subject :: others) rankings factors = Some table
      ∧ (∀ sid, is_Some (table !! sid) ↔ sid ∈ subject :: others)
      ∧ (∀ sid, sid ∈ others → sid ≠ subject →
           table !! sid
           = Some (calculate_store_adjustment
                     (default ∅ (rankings !! sid))
                     (default ∅ (rankings !! subject)) factors)).
Proof.
  split; [done|]. eexists. split; [done|]. split.
  - intros sid. rewrite store_adjustments_fold_lookup.
    destruct (decide (sid ∈ subject :: others)) as [Hin|Hout].
    + split; [done|]. intros _. eauto.
    + rewrite lookup_empty. split; [by intros [? ?]|done].
  - intros sid Hin Hne. rewrite store_adjustments_fold_lookup.
    rewrite decide_True by (by right). by rewrite decide_False.
Qed.

Lemma adjustment_table_entries_witness :
  ∃ table,
    store_adjustments [1; 2]%Z ∅ [] = Some table
    ∧ table !! 2%Z = Some (calculate_store_adjustment ∅ ∅ []).
Proof.
  destruct (adjustment_table_entries 1%Z [2%Z] ∅ [])
    as (_ & table & Heq & _ & Hother).
  exists table. split; [done|].
  rewrite (Hother 2%Z); [by rewrite lookup_empty | set_solver | done].
Defined.

End ScorerFacts.

(** ** Classification strings: [build_tag_string_from_db],
    [build_amenities_string_from_db] and [suggest_feature_code] *)

Module Tags.

Import Records Client.
Local Open Scope string_scope.

(** The boolean fields of a rate dictionary of the database reader. *)
Record flags : Type := {
  climate_controlled : bool;
  humidity_controlled : bool;
  drive_up : bool;
  elevator : bool;
  outdoor_access : bool;
  car : bool;
  rv : bool;
  boat : bool;
  other_vehicle : bool;
  power : bool;
  covered : bool
}.

Definition access_type (rate : flags) : string :=
  if drive_up rate || car rate || rv rate || boat rate || other_vehicle rate
  then "Drive-Up"
  else if elevator rate then "Elevator"
  else "Ground Level".

Definition climate_type (rate : flags) : string :=
  if climate_controlled rate then "Climate Controlled"
  else if humidity_controlled rate then "Humidity Controlled"
  else "Non-Climate".

(** [f"{access_type} / {climate_type}"] *)
Definition build_tag_string_from_db (rate : flags) : string :=
  access_type rate +:+ " / " +:+ climate_type rate.

(** The list [amenities] at the end of [build_amenities_string_from_db]. *)
Definition amenities (rate : flags) : list string :=
  (if climate_controlled rate then ["Climate Controlled"] else [])
  ++ [if outdoor_access rate then "Outdoor Access" else "Indoor Access"]
  ++ (if power rate then ["Power"] else [])
  ++ [if covered rate then "Covered" else "Not Covered"]
  ++ (if drive_up rate then ["Drive Up Access"]
      else if elevator rate then ["Elevator Access"]
      else if negb (car rate) && negb (rv rate) && negb (boat rate)
              && negb (other_vehicle rate)
      then ["Ground Floor Access"]
      else [])
  ++ (if car rate then ["Vehicle Parking"] else [])
  ++ (if rv rate then ["RV Parking"] else [])
  ++ (if boat rate then ["Boat Parking"] else [])
  ++ (if other_vehicle rate then ["Other Parking"] else []).

(** [sep.join(items)] *)
Fixpoint join (sep : string) (items : list string) : string :=
  match items with
  | [] => ""
  | [item] => item
  | item :: rest => item +:+ sep +:+ join sep rest
  end.

Definition build_amenities_string_from_db (rate : flags) : string :=
  join ", " (amenities rate).

Definition suggest_feature_code (feature_text : string) : string :=
  match feature_text with
  | EmptyString => "UNKNOWN"
  | _ =>
      let feature_lower := lower feature_text in
      let is_climate :=
        contains "climate" feature_lower
        && negb (contains "non-climate" feature_lower) in
      let is_drive_up := contains "drive" feature_lower in
      let is_elevator := contains "elevator" feature_lower in
      let is_ground :=
        contains "ground" feature_lower
        || contains "first floor" feature_lower in
      let is_interior := contains "interior" feature_lower in
      if is_drive_up then (if is_climate then "DUCC" else "DU")
      else if is_elevator then (if is_climate then "ECC" else "ENCC")
      else if is_ground then (if is_climate then "GLCC" else "GNCC")
      else if is_interior then (if is_climate then "ICC" else "INCC")
      else (if is_climate then "CC" else "NCC")
  end.

(** The code by the flags alone. *)
Definition code_of_flags (rate : flags) : string :=
  if drive_up rate || car rate || rv rate || boat rate || other_vehicle rate
  then (if climate_controlled rate then "DUCC" else "DU")
  else if elevator rate
  then (if climate_controlled rate then "ECC" else "ENCC")
  else (if climate_controlled rate then "GLCC" else "GNCC").

(** X13. The code suggested for the tag of a database rate is decided by
    its flags: drive-up (or any vehicle flag), then elevator, then ground
    level, with the climate variant exactly when the rate is climate
    controlled; a unit that is only humidity controlled gets the
    non-climate code, and no database tag is suggested UNKNOWN, an
    interior code, CC or NCC. *)
Theorem suggested_code_of_db_tag (rate : flags) :
  suggest_feature_code (build_tag_string_from_db rate) = code_of_flags rate.
Proof.
  destruct rate as [cc hum du el out c r b o pw cov].
  destruct cc, hum, du, el, c, r, b, o; by vm_compute.
Qed.

(** X14. A code is always suggested: UNKNOWN exactly for the empty text,
    otherwise one of ten codes; and a text that mentions "non-climate", in
    any case, is never given a climate code. *)
Theorem suggested_code_cases (feature_text : string) :
  (suggest_feature_code feature_text = "UNKNOWN" ↔ feature_text = "")
  ∧ (feature_text ≠ "" →
     suggest_feature_code feature_text
     ∈ ["DUCC"; "DU"; "ECC"; "ENCC"; "GLCC"; "GNCC"; "ICC"; "INCC"; "CC";
        "NCC"])
  ∧ (contains "non-climate" (lower feature_text) = true →
     suggest_feature_code feature_text
     ∈ ["DU"; "ENCC"; "GNCC"; "INCC"; "NCC"]).
Proof.
  destruct feature_text as [|c text].
  - split_and!; [done|done|]. by vm_compute.
  - unfold suggest_feature_code.
    set (l := lower (String c text)).
    split_and!.
    + split; [|done].
      destruct (contains "climate" l), (contains "non-climate" l),
        (contains "drive" l), (contains "elevator" l), (contains "ground" l),
        (contains "first floor" l), (contains "interior" l); by simpl.
    + intros _.
      destruct (contains "climate" l), (contains "non-climate" l),
        (contains "drive" l), (contains "elevator" l), (contains "ground" l),
        (contains "first floor" l), (contains "interior" l); simpl;
        set_solver.
    + intros ->. rewrite andb_false_r.
      destruct (contains "drive" l), (contains "elevator" l),
        (contains "ground" l), (contains "first floor" l),
        (contains "interior" l); simpl; set_solver.
Qed.

Lemma suggested_code_cases_witness :
  suggest_feature_code "Drive-Up / Non-Climate"
  ∈ ["DU"; "ENCC"; "GNCC"; "INCC"; "NCC"].
Proof.
  apply (suggested_code_cases "Drive-Up / Non-Climate"). by vm_compute.
Defined.

Lemma bool_decide_iff (P Q : Prop) `{Decision P, Decision Q} :
  bool_decide P = bool_decide Q → P ↔ Q.
Proof.
  intros Heq. by rewrite <- (bool_decide_spec P), Heq, bool_decide_spec.
Qed.

(** X15. The amenities list and the tag of a rate agree: Ground Floor
    Access is listed exactly when the tag's access is Ground Level,
    Climate Controlled exactly when the tag's climate is Climate
    Controlled, a tag with Elevator access lists Elevator Access; the list
    names exactly one of Indoor and Outdoor Access and one of Covered and
    Not Covered, and no entry twice. *)
Theorem amenities_agree_with_tag (rate : flags) :
  ("Ground Floor Access" ∈ amenities rate
   ↔ access_type rate = "Ground Level")
  ∧ ("Climate Controlled" ∈ amenities rate
     ↔ climate_type rate = "Climate Controlled")
  ∧ (access_type rate = "Elevator" → "Elevator Access" ∈ amenities rate)
  ∧ ("Outdoor Access" ∈ amenities rate ↔ "Indoor Access" ∉ amenities rate)
  ∧ ("Covered" ∈ amenities rate ↔ "Not Covered" ∉ amenities rate)
  ∧ NoDup (amenities rate).
Proof.
  destruct rate as [cc hum du el out c r b o pw cov].
  split_and!.
  - refine (bool_decide_iff _ _ _). destruct cc, du, el, out, c, r, b, o, pw, cov; by vm_compute.
  - refine (bool_decide_iff _ _ _). destruct cc, hum, du, el, out, c, r, b, o, pw, cov;
      by vm_compute.
  - destruct cc, du, el, out, c, r, b, o, pw, cov; try (by vm_compute);
      intros _; apply (bool_decide_unpack _); by vm_compute.
  - refine (bool_decide_iff _ _ _). destruct cc, du, el, out, c, r, b, o, pw, cov; by vm_compute.
  - refine (bool_decide_iff _ _ _). destruct cc, du, el, out, c, r, b, o, pw, cov; by vm_compute.
  - apply (bool_decide_unpack _).
    destruct cc, du, el, out, c, r, b, o, pw, cov; by vm_compute.
Qed.

Lemma amenities_agree_with_tag_witness :
  let rate := {| climate_controlled := true; humidity_controlled := false;
                 drive_up := false; elevator := true;
                 outdoor_access := false; car := false; rv := false;
                 boat := false; other_vehicle := false; power := false;
                 covered := false |} in
  "Elevator Access" ∈ amenities rate.
Proof.
  intros rate.
  destruct (amenities_agree_with_tag rate) as (_ & _ & Helevator & _).
  by apply Helevator.
Defined.

End Tags.

(** ** More on the grouped report: nested trailing periods, the pooled row
    of a one-store group, the subject's adjusted columns, and averages *)

Module ReportFacts.

Import Records Report.
Local Open Scope Qc_scope.

(** X16. A trailing period that starts earlier averages every price of
    one that starts later, in the same order: the prices of T-1 are among
    those of T-3, those among T-6, those among T-12. *)
Theorem longer_period_holds_shorter (field : entry → option Qc)
    (start_date start_date' : Z) (records : list entry) :
  (start_date ≤ start_date')%Z →
  prices_since field start_date' records
  `sublist_of` prices_since field start_date records.
Proof.
  intros Hle. unfold prices_since.
  induction records as [|r records IH]; csimpl; [constructor|].
  destruct (truthy (field r)) eqn:Ht; rewrite ?andb_false_r, ?andb_true_r.
  - destruct (field r) as [v|] eqn:Hv; [|done].
    repeat case_bool_decide; simpl; try lia;
      [by apply sublist_skip|by apply sublist_cons|done].
  - repeat case_bool_decide; simpl; done.
Qed.

Lemma longer_period_holds_shorter_witness :
  prices_since entry_online_price 739283
    [ {| entry_date := 739261; entry_walk_in_price := None;
         entry_online_price := Some (Z2Qc 100); entry_store_id := 1 |};
      {| entry_date := 739292; entry_walk_in_price := None;
         entry_online_price := Some (Z2Qc 110); entry_store_id := 1 |} ]
  `sublist_of`
  prices_since entry_online_price 739252
    [ {| entry_date := 739261; entry_walk_in_price := None;
         entry_online_price := Some (Z2Qc 100); entry_store_id := 1 |};
      {| entry_date := 739292; entry_walk_in_price := None;
         entry_online_price := Some (Z2Qc 110); entry_store_id := 1 |} ].
Proof. apply longer_period_holds_shorter. lia. Defined.

Section MonthlyFacts.

Variable month : Z → Z.

Lemma append_price_lookup (m i : Z) (p : option Qc)
    (monthly : gmap Z (list Qc)) :
  append_price m p monthly !! i
  = (λ prices,
       prices ++ match (if bool_decide (m = i) && truthy p then p else None)
                 with Some v => [v] | None => [] end)
    <$> monthly !! i.
Proof.
  assert (∀ o : option (list Qc), (λ prices, prices ++ []) <$> o = o) as Hid.
  { intros [l|]; simpl; by rewrite ?app_nil_r. }
  unfold append_price. destruct p as [v|]; simpl.
  - case_bool_decide as Hv; simpl.
    + rewrite lookup_alter. destruct (decide (m = i)) as [->|Hne].
      * by rewrite bool_decide_true by done.
      * rewrite bool_decide_false by done. simpl. by rewrite Hid.
    + rewrite andb_false_r. by rewrite Hid.
  - rewrite andb_false_r. by rewrite Hid.
Qed.

(** The lists filled by the loop over a store's records are the ones the
    pooled row selects with a comprehension. *)
Lemma fold_add_monthly_lookup (records : list entry)
    (acc : gmap Z (list Qc) * gmap Z (list Qc)) (i : Z) :
  (fold_left (add_monthly month) records acc).1 !! i
  = (λ prices, prices ++ prices_in_month month entry_walk_in_price i records)
    <$> acc.1 !! i
  ∧ (fold_left (add_monthly month) records acc).2 !! i
    = (λ prices, prices ++ prices_in_month month entry_online_price i records)
      <$> acc.2 !! i.
Proof.
  revert acc. induction records as [|r records IH]; intros acc.
  - simpl. split; destruct (_ !! i); simpl; by rewrite ?app_nil_r.
  - cbn [fold_left]. destruct (IH (add_monthly month acc r)) as [-> ->].
    unfold add_monthly; cbn [fst snd]. rewrite !append_price_lookup.
    unfold prices_in_month. csimpl.
    split; destruct (_ !! i); simpl; try done; f_equal;
      rewrite <- app_assoc; f_equal; by case_match.
Qed.

Lemma empty_months_lookup (i : Z) :
  (1 ≤ i ≤ 12)%Z → empty_months !! i = Some [].
Proof.
  intros Hi. unfold empty_months. rewrite LocalData.lookup_initial_dict.
  rewrite decide_True; [done|]. apply elem_of_seqZ. lia.
Qed.

(** X17. In a group with a single store, the AVERAGE row repeats the
    store's In Store and Asking UnAdj cells, month by month and period by
    period. *)
Theorem single_store_average_row (rate_records : list entry)
    (adjustment_pct : Qc) (t_starts : list Z) :
  (λ c : cell * cell * cell, c.1) <$> average_row month rate_records t_starts
  = (λ c : cell * cell * cell, c.1)
      <$> store_row month rate_records adjustment_pct t_starts.
Proof.
  unfold average_row, store_row. rewrite !fmap_app, <- !list_fmap_compose.
  f_equal.
  apply list_fmap_ext. intros k i Hi. simpl.
  assert (1 ≤ i ≤ 12)%Z as Hrange.
  { apply list_elem_of_lookup_2, elem_of_seqZ in Hi. lia. }
  destruct (fold_add_monthly_lookup rate_records
              (empty_months, empty_months) i) as [-> ->].
  cbn [fst snd]. rewrite empty_months_lookup by done. done.
Qed.

Lemma price_cell_adjusted_zero (online_avg : option Qc) :
  price_cell (adjusted online_avg 0) = price_cell online_avg.
Proof.
  destruct online_avg as [avg|]; [|done]. simpl.
  case_bool_decide as Havg; simpl; [|done].
  replace (avg * (1 + 0)) with avg by ring.
  by rewrite bool_decide_true.
Qed.

(** X18. With an adjustment of 0, as the subject store has, the Asking Adj
    cells of a store row repeat its Asking UnAdj cells. *)
Theorem zero_adjustment_repeats_asking (rate_records : list entry)
    (t_starts : list Z) :
  (λ c : cell * cell * cell, c.2) <$> store_row month rate_records 0 t_starts
  = (λ c : cell * cell * cell, c.1.2)
      <$> store_row month rate_records 0 t_starts.
Proof.
  unfold store_row. rewrite !fmap_app, <- !list_fmap_compose. f_equal.
  - apply list_fmap_ext. intros k i _. simpl.
    apply price_cell_adjusted_zero.
  - apply list_fmap_ext. intros k start _. simpl.
    apply price_cell_adjusted_zero.
Qed.

End MonthlyFacts.

Lemma Z2Qc_succ (n : nat) : Z2Qc (Z.of_nat (S n)) = Z2Qc (Z.of_nat n) + 1.
Proof.
  apply Qc_is_canon. unfold Z2Qc, Qcplus. cbn [this Q2Qc].
  rewrite !Qred_correct. rewrite Nat2Z.inj_succ. unfold Z.succ.
  rewrite inject_Z_plus. reflexivity.
Qed.

Lemma Z2Qc_of_nat_nonneg (n : nat) : 0 ≤ Z2Qc (Z.of_nat n).
Proof.
  induction n as [|n IH]; [by vm_compute|].
  rewrite Z2Qc_succ. replace 0 with (0 + 0) by ring.
  apply Qcplus_le_compat; [done|by vm_compute].
Qed.

Lemma fold_left_Qcplus (prices : list Qc) (acc : Qc) :
  fold_left Qcplus prices acc = acc + fold_left Qcplus prices 0.
Proof.
  revert acc. induction prices as [|v prices IH]; intros acc; simpl.
  - ring.
  - rewrite IH, (IH (0 + v)). ring.
Qed.

Lemma sum_between (lo hi : Qc) (prices : list Qc) :
  Forall (λ v, lo ≤ v ∧ v ≤ hi) prices →
  lo * Z2Qc (Z.of_nat (length prices)) ≤ fold_left Qcplus prices 0
  ∧ fold_left Qcplus prices 0 ≤ hi * Z2Qc (Z.of_nat (length prices)).
Proof.
  induction 1 as [|v prices [Hlo Hhi] _ [IHlo IHhi]].
  - simpl. replace (Z2Qc 0) with 0 by (apply Qc_is_canon; by vm_compute).
    rewrite !Qcmult_0_r. split; apply Qcle_refl.
  - cbn [length fold_left]. rewrite Z2Qc_succ, fold_left_Qcplus.
    rewrite !Qcmult_plus_distr_r, !Qcmult_1_r.
    replace (0 + v + fold_left Qcplus prices 0)
      with (fold_left Qcplus prices 0 + v) by ring.
    split; by apply Qcplus_le_compat.
Qed.

(** X19. An average exists exactly for a non-empty list of prices, and it
    lies between any two bounds that all the prices respect. *)
Theorem mean_between (lo hi : Qc) (prices : list Qc) :
  (mean prices = None ↔ prices = [])
  ∧ (Forall (λ v, lo ≤ v ∧ v ≤ hi) prices →
     ∀ m, mean prices = Some m → lo ≤ m ∧ m ≤ hi).
Proof.
  split.
  - by destruct prices.
  - intros Hall m Hmean.
    destruct prices as [|v prices]; [done|].
    set (l := v :: prices) in *.
    set (n := Z2Qc (Z.of_nat (length l))).
    assert (m = fold_left Qcplus l 0 / n) as Hm
      by (subst n l; unfold mean in Hmean; congruence).
    assert (0 < n) as Hpos.
    { subst n l. cbn [length]. rewrite Z2Qc_succ.
      apply Qcle_lt_trans with (Z2Qc (Z.of_nat (length prices)) + 0).
      - rewrite Qcplus_0_r. apply Z2Qc_of_nat_nonneg.
      - apply Qcplus_lt_mono_l. by vm_compute. }
    assert (m * n = fold_left Qcplus l 0) as Hsum.
    { rewrite Hm, Qcmult_comm. apply Qcmult_div_r.
      intros Hz. rewrite Hz in Hpos. by apply Qclt_not_eq in Hpos. }
    destruct (sum_between lo hi l Hall) as [Hlo Hhi]. fold n in Hlo, Hhi.
    rewrite <- Hsum in Hlo, Hhi.
    split; by apply (Qcmult_lt_0_le_reg_r _ _ n).
Qed.

Lemma mean_between_witness :
  Z2Qc 100 ≤ Z2Qc 105 ∧ Z2Qc 105 ≤ Z2Qc 110.
Proof.
  apply (mean_between (Z2Qc 100) (Z2Qc 110) [Z2Qc 100; Z2Qc 110]).
  - repeat constructor; by vm_compute.
  - unfold mean. f_equal. apply Qc_is_canon. by vm_compute.
Defined.

End ReportFacts.


(** ** More on [fetch_historical_data]: recovery, back-off time and the
    retry after a 429 *)

Module ClientFacts.

Import Records Client.

(** What a call returns for a parsed body:
    [result if isinstance(result, list) else [result]]. *)
Definition as_list (body : json) : list api_store :=
  match body with
  | JsonList stores => stores
  | JsonObject store => [store]
  end.

(** The seconds slept per attempt number after an answer that is retried
    with a back-off; [None] for an answer handled otherwise. *)
Definition backoff_unit (answer : post_result) : option Z :=
  match answer with
  | Raised => Some 2
  | Responded resp =>
      if bool_decide (status_code resp = 200) then
        match json_body resp with Some _ => None | None => Some 2 end
      else if bool_decide (status_code resp = 429) then None
      else if bool_decide (status_code resp = 404) then Some 2
      else if bool_decide (status_code resp = 500 ∨ status_code resp = 503)
      then Some 5
      else if bool_decide (status_code resp = 400) then
        if sql_timeout (text resp) then Some 5 else None
      else None
  end.

(** The answers after which the client tries again while attempts are
    left: the transient ones, and a 200 whose body is not JSON, on which
    [resp.json()] raises into the [except] clause. *)
Definition retried (answer : post_result) : bool :=
  transient answer
  || match answer with
     | Responded resp =>
         bool_decide (status_code resp = 200)
         && match json_body resp with Some _ => false | None => true end
     | Raised => false
     end.

Section Facts.

Variable auth : nat → auth_result.
Variable hist : nat → post_result.

(** A retried answer ends the attempt with [continue], or with
    [return None] on the last attempt. *)
Lemma attempt_once_retried max_retries attempt st :
  retried (hist (length (hist_posts st))) = true →
  (attempt_once auth hist max_retries attempt st).1
  = if bool_decide (attempt < max_retries - 1) then Continue
    else Return None.
Proof.
  unfold retried. intros [Htransient|Hunreadable]%orb_true_iff.
  - by apply attempt_once_transient.
  - unfold attempt_once.
    pose proof (get_auth_token_posts auth (rate_limit_wait st)) as Hposts.
    destruct (_get_auth_token auth (rate_limit_wait st)) as [header st2].
    simpl in Hposts.
    destruct (rate_limit_wait_posts st) as (Hwait & _ & _).
    rewrite Hposts, Hwait.
    destruct (hist (length (hist_posts st))) as [|resp]; [done|].
    apply andb_true_iff in Hunreadable as [Hstatus%bool_decide_eq_true Hbody].
    unfold handle_response. rewrite bool_decide_true by done.
    destruct (json_body resp); [done|].
    unfold retry_after. by case_bool_decide.
Qed.

(** One attempt, by the fields of the state it leaves. *)
Lemma attempt_once_success max_retries attempt st resp body :
  hist (length (hist_posts st)) = Responded resp →
  status_code resp = 200 → json_body resp = Some body →
  (attempt_once auth hist max_retries attempt st).1
  = Return (Some (as_list body))
  ∧ rate_call_count (attempt_once auth hist max_retries attempt st).2
    = rate_call_count (rate_limit_wait st) + 1.
Proof.
  intros Hanswer Hstatus Hbody. unfold attempt_once.
  pose proof (get_auth_token_posts auth (rate_limit_wait st)) as Hp.
  destruct (get_auth_token_window auth (rate_limit_wait st)) as (_ & Hc & _).
  destruct (_get_auth_token auth (rate_limit_wait st)) as [header st2].
  simpl in Hp, Hc. destruct (rate_limit_wait_posts st) as (Hwait & _ & _).
  rewrite Hp, Hwait, Hanswer. unfold handle_response.
  rewrite bool_decide_true by done. rewrite Hbody.
  destruct body; simpl; by rewrite Hc.
Qed.

Lemma attempt_once_backoff max_retries attempt st u :
  backoff_unit (hist (length (hist_posts st))) = Some u →
  rate_call_count st < RATE_LIMIT_PER_HOUR →
  let r := attempt_once auth hist max_retries attempt st in
  r.1 = (if bool_decide (attempt < max_retries - 1) then Continue
         else Return None)
  ∧ clock r.2
    = clock st + (if bool_decide (attempt < max_retries - 1)
                  then u * (attempt + 1) else 0)
  ∧ rate_call_count st ≤ rate_call_count r.2 ≤ rate_call_count st + 1.
Proof.
  intros Hunit Hbelow. cbn zeta. unfold attempt_once.
  assert (rate_limit_wait st = st) as ->
    by (unfold rate_limit_wait; by rewrite bool_decide_false by lia).
  pose proof (get_auth_token_posts auth st) as Hp.
  destruct (get_auth_token_window auth st) as (_ & Hc & Hk).
  destruct (_get_auth_token auth st) as [header st2].
  simpl in Hp, Hc, Hk. rewrite Hp.
  destruct (hist (length (hist_posts st))) as [|resp]; simpl in Hunit.
  - injection Hunit as <-. unfold retry_after.
    case_bool_decide; simpl; split_and!; try done; lia.
  - unfold handle_response, retry_after.
    repeat case_bool_decide; try done;
      repeat case_match; try done;
      injection Hunit as <-; simpl; split_and!; try done; lia.
Qed.

Lemma run_attempts_recover max_retries (k m : nat) a st resp body :
  a + Z.of_nat (S m) = max_retries → (k ≤ m)%nat →
  (∀ i, (i < k)%nat →
        retried (hist (length (hist_posts st) + i)%nat) = true) →
  hist (length (hist_posts st) + k)%nat = Responded resp →
  status_code resp = 200 → json_body resp = Some body →
  let r := run_attempts auth hist max_retries (seqZ a (Z.of_nat (S m))) st in
  r.1 = Some (as_list body)
  ∧ length (hist_posts r.2) = (length (hist_posts st) + S k)%nat.
Proof.
  revert m a st.
  induction k as [|k IH]; intros m a st Ha Hk Htransient Hanswer Hs Hb;
    cbn zeta; rewrite seqZ_cons by lia; cbn [run_attempts].
  - rewrite Nat.add_0_r in Hanswer.
    destruct (attempt_once_success max_retries a st resp body Hanswer Hs Hb)
      as [Hout _].
    pose proof (attempt_once_posts auth hist max_retries a st) as Hposts.
    destruct (attempt_once auth hist max_retries a st) as [o st'].
    simpl in Hout, Hposts. subst o. simpl. split; [done|]. lia.
  - destruct m as [|m]; [lia|].
    pose proof (attempt_once_retried max_retries a st) as Hout.
    rewrite <- (Nat.add_0_r (length (hist_posts st))) in Hout.
    specialize (Hout (Htransient 0%nat ltac:(lia))).
    pose proof (attempt_once_posts auth hist max_retries a st) as Hposts.
    destruct (attempt_once auth hist max_retries a st) as [o st'].
    simpl in Hout, Hposts. rewrite bool_decide_true in Hout by lia. subst o.
    replace (Z.pred (Z.of_nat (S (S m)))) with (Z.of_nat (S m)) by lia.
    destruct (IH m (Z.succ a) st') as [Hres Hlen]; try done; try lia.
    + intros i Hi. rewrite Hposts.
      replace (S (length (hist_posts st)) + i)%nat
        with (length (hist_posts st) + S i)%nat by lia.
      apply Htransient. lia.
    + rewrite Hposts.
      by replace (S (length (hist_posts st)) + k)%nat
        with (length (hist_posts st) + S k)%nat by lia.
    + split; [done|]. rewrite Hlen, Hposts. lia.
Qed.

Lemma run_attempts_backoff max_retries (m : nat) a st u :
  a + Z.of_nat (S m) = max_retries → 0 ≤ a →
  rate_call_count st + Z.of_nat (S m) ≤ RATE_LIMIT_PER_HOUR →
  (∀ n, backoff_unit (hist n) = Some u) →
  let r := run_attempts auth hist max_retries (seqZ a (Z.of_nat (S m))) st in
  r.1 = None
  ∧ 2 * (clock r.2 - clock st)
    = u * ((max_retries - 1) * max_retries - a * (a + 1)).
Proof.
  revert a st.
  induction m as [|m IH]; intros a st Ha Hpos Hcount Hunit; cbn zeta;
    rewrite seqZ_cons by lia; cbn [run_attempts];
    destruct (attempt_once_backoff max_retries a st u (Hunit _))
      as (Hout & Hclock & Hc); try lia;
    destruct (attempt_once auth hist max_retries a st) as [o st'];
    simpl in Hout, Hclock, Hc.
  - rewrite bool_decide_false in Hout, Hclock by lia. subst o.
    simpl. split; [done|]. nia.
  - rewrite bool_decide_true in Hout, Hclock by lia. subst o.
    replace (Z.pred (Z.of_nat (S (S m)))) with (Z.of_nat (S m)) by lia.
    destruct (IH (Z.succ a) st') as [Hres Hk]; try done; try lia.
    split; [done|]. nia.
Qed.

End Facts.

(** X20. When the first [k] answers are ones the client retries (a 429,
    a 404, a 500, a 503, a timeout 400, a transport exception or a 200
    with an unreadable body) and the next is a 200 with a JSON body, with
    [k] below [max_retries], the call returns that body (a single payload
    wrapped in a list) after exactly [k + 1] requests. *)
Theorem retry_recovers (auth : nat → auth_result) (hist : nat → post_result)
    (max_retries : Z) (st : state) (k : nat) (resp : response)
    (body : json) :
  Z.of_nat k < max_retries →
  (∀ i, (i < k)%nat →
        retried (hist (length (hist_posts st) + i)%nat) = true) →
  hist (length (hist_posts st) + k)%nat = Responded resp →
  status_code resp = 200 → json_body resp = Some body →
  (fetch_historical_data auth hist max_retries st).1 = Some (as_list body)
  ∧ length (hist_posts (fetch_historical_data auth hist max_retries st).2)
    = (length (hist_posts st) + S k)%nat.
Proof.
  intros Hk Htransient Hanswer Hs Hb. unfold fetch_historical_data.
  replace max_retries with (Z.of_nat (S (Z.to_nat (max_retries - 1))))
    at 2 4 by lia.
  apply (run_attempts_recover auth hist max_retries k _ 0 st resp body);
    try done; lia.
Qed.

(** A 503, then a 200 whose body is no JSON, then the payload of one
    store. *)
Definition third_time_lucky (n : nat) : post_result :=
  match n with
  | 0%nat => always_unavailable n
  | 1%nat =>
      Responded {| status_code := 200; text := "<html>"; json_body := None |}
  | _ => Responded
           {| status_code := 200; text := "{}";
              json_body := Some (JsonObject {| storeID := 7; unitType := [] |}) |}
  end.

Lemma retry_recovers_witness :
  (fetch_historical_data no_login third_time_lucky 3 fresh).1
  = Some [ {| storeID := 7; unitType := [] |} ]
  ∧ length (hist_posts
              (fetch_historical_data no_login third_time_lucky 3 fresh).2)
    = 3%nat.
Proof.
  apply (retry_recovers no_login third_time_lucky 3 fresh 2
           {| status_code := 200; text := "{}";
              json_body := Some (JsonObject {| storeID := 7; unitType := [] |}) |}
           (JsonObject {| storeID := 7; unitType := [] |}));
    try done.
  intros [|[|i]] Hi; try done. simpl in Hi. lia.
Defined.

(** X21. When every answer is retried with a back-off of [u] seconds per
    attempt number (2 for a 404, a transport exception or an unreadable
    body, 5 for a 500, a 503 or a timeout 400) and the counter stays below
    the limit, the call gives up after sleeping [u * (1 + ... + (n - 1))]
    seconds for [n = max_retries]: nothing is slept after the last
    attempt. *)
Theorem backoff_time (auth : nat → auth_result) (hist : nat → post_result)
    (max_retries : Z) (st : state) (u : Z) :
  0 < max_retries →
  rate_call_count st + max_retries ≤ RATE_LIMIT_PER_HOUR →
  (∀ n, backoff_unit (hist n) = Some u) →
  (fetch_historical_data auth hist max_retries st).1 = None
  ∧ 2 * (clock (fetch_historical_data auth hist max_retries st).2 - clock st)
    = u * max_retries * (max_retries - 1).
Proof.
  intros Hmax Hcount Hunit. unfold fetch_historical_data.
  replace max_retries with (Z.of_nat (S (Z.to_nat (max_retries - 1))))
    at 2 4 by lia.
  destruct (run_attempts_backoff auth hist max_retries
              (Z.to_nat (max_retries - 1)) 0 st u) as [Hres Hclock];
    try done; try lia.
  split; [done|]. lia.
Qed.

Lemma backoff_time_witness :
  (fetch_historical_data no_login always_unavailable 3 fresh).1 = None
  ∧ 2 * (clock (fetch_historical_data no_login always_unavailable 3 fresh).2
         - clock fresh)
    = 5 * 3 * (3 - 1).
Proof.
  apply (backoff_time no_login always_unavailable 3 fresh 5); try done.
Defined.

Lemma attempt_once_429 auth hist max_retries attempt st resp :
  hist (length (hist_posts st)) = Responded resp →
  status_code resp = 429 →
  rate_call_count st < RATE_LIMIT_PER_HOUR →
  let r := attempt_once auth hist max_retries attempt st in
  r.1 = (if bool_decide (attempt < max_retries - 1) then Continue
         else Return None)
  ∧ clock r.2 = Z.max (clock st) (rate_window_start st + 3600)
  ∧ rate_window_start r.2 = clock r.2
  ∧ rate_call_count r.2 = 0.
Proof.
  intros Hanswer Hstatus Hbelow. cbn zeta. unfold attempt_once.
  assert (rate_limit_wait st = st) as ->
    by (unfold rate_limit_wait; by rewrite bool_decide_false by lia).
  pose proof (get_auth_token_posts auth st) as Hp.
  destruct (get_auth_token_window auth st) as (Hs & Hc & Hk).
  destruct (_get_auth_token auth st) as [header st2].
  simpl in Hp, Hs, Hc, Hk. rewrite Hp, Hanswer. unfold handle_response.
  rewrite bool_decide_false by lia. rewrite bool_decide_true by done.
  cbn [fst snd].
  match goal with |- context [drain_window ?s] =>
    set (s0 := s);
    destruct (drain_window_start s0) as (_ & Hstart & Hclock & Hzero & _)
  end.
  change (clock s0) with (clock st2) in Hclock.
  change (rate_window_start s0) with (rate_window_start st2) in Hclock.
  rewrite Hs, Hk in Hclock. done.
Qed.

(** X22. After a 429 below the limit the retry is sent in a new window:
    not before one hour after the old window start, at an instant that is
    the new window start, and the counter restarts, so that a call
    answered 429 and then 200 ends with the payload, two requests and a
    counter of 1. *)
Theorem retry_after_429_in_new_window (auth : nat → auth_result)
    (hist : nat → post_result) (max_retries : Z) (st : state)
    (limited ok : response) (body : json) :
  1 < max_retries →
  rate_call_count st < RATE_LIMIT_PER_HOUR →
  hist (length (hist_posts st)) = Responded limited →
  status_code limited = 429 →
  hist (S (length (hist_posts st))) = Responded ok →
  status_code ok = 200 → json_body ok = Some body →
  let r := fetch_historical_data auth hist max_retries st in
  r.1 = Some (as_list body)
  ∧ rate_call_count r.2 = 1
  ∧ ∃ first second,
      hist_posts r.2 = hist_posts st ++ [first; second]
      ∧ post_time second = Z.max (clock st) (rate_window_start st + 3600)
      ∧ post_window second = post_time second.
Proof.
  intros Hmax Hbelow H1 Hs1 H2 Hs2 Hb. cbn zeta.
  unfold fetch_historical_data. rewrite seqZ_cons by lia.
  cbn [run_attempts].
  destruct (attempt_once_429 auth hist max_retries 0 st limited H1 Hs1 Hbelow)
    as (Hout & Hclock & Hstart & Hzero).
  destruct (attempt_once_event auth hist max_retries 0 st)
    as (h1 & a1 & Hev1).
  pose proof (attempt_once_posts auth hist max_retries 0 st) as Hlen.
  destruct (attempt_once auth hist max_retries 0 st) as [o st1].
  simpl in Hout, Hclock, Hstart, Hzero, Hev1, Hlen.
  rewrite bool_decide_true in Hout by lia. subst o.
  rewrite seqZ_cons by lia. cbn [run_attempts].
  rewrite <- Hlen in H2.
  destruct (attempt_once_success auth hist max_retries (Z.succ 0) st1 ok body
              H2 Hs2 Hb) as [Hout2 Hcount2].
  destruct (attempt_once_event auth hist max_retries (Z.succ 0) st1)
    as (h2 & a2 & Hev2).
  assert (rate_limit_wait st1 = st1) as Hwait.
  { unfold rate_limit_wait. rewrite Hzero.
    by rewrite bool_decide_false by (unfold RATE_LIMIT_PER_HOUR; lia). }
  rewrite Hwait in Hcount2, Hev2.
  destruct (attempt_once auth hist max_retries (Z.succ 0) st1) as [o2 st2].
  simpl in Hout2, Hcount2, Hev2. subst o2. simpl.
  split_and!; [done|lia|].
  eexists _, _. split.
  - rewrite Hev2, Hev1, <- app_assoc. reflexivity.
  - simpl. split; [done|]. by rewrite Hstart.
Qed.

Definition limited_once (n : nat) : post_result :=
  match n with
  | 0%nat => Responded {| status_code := 429; text := "";
                          json_body := None |}
  | _ => always_ok n
  end.

Lemma retry_after_429_in_new_window_witness :
  (fetch_historical_data no_login limited_once 3 fresh).1 = Some []
  ∧ rate_call_count (fetch_historical_data no_login limited_once 3 fresh).2
    = 1.
Proof.
  split.
  - apply (retry_after_429_in_new_window no_login limited_once 3 fresh
             {| status_code := 429; text := ""; json_body := None |}
             {| status_code := 200; text := "[]";
                json_body := Some (JsonList []) |} (JsonList []));
      done.
  - apply (retry_after_429_in_new_window no_login limited_once 3 fresh
             {| status_code := 429; text := ""; json_body := None |}
             {| status_code := 200; text := "[]";
                json_body := Some (JsonList []) |} (JsonList []));
      done.
Defined.

End ClientFacts.

(** ** The back-fill loop of [main]: one call per missing range *)

Module Backfill.

Import Records Client.

(** What the loop has done so far: the records gathered, the calls made
    to [fetch_historical_data] by their arguments [(store_id, range_start,
    range_end)], and whether [parse_api_rate_data] has raised, which
    nothing in [main] catches: the run has then ended. *)
Record progress : Type := {
  api_records : list rate_record;
  requested : list (Z * Z * Z);
  raised : bool
}.

Definition nothing : progress :=
  {| api_records := []; requested := []; raised := false |}.

Section Loop.

Variable auth : nat → auth_result.
Variable hist : nat → post_result.

(** The unit types sent with a ['size'] that is JSON null: the field
    [unit_size] holds strings only. On such a unit [re.match] raises
    TypeError in [parse_api_rate_data]. *)
Variable size_is_null : api_unit → bool.

(** Whether [parse_api_rate_data] raises on a payload: the size of every
    unit type of every store is matched. *)
Definition parse_raises (api_data : list api_store) : bool :=
  existsb (λ store, existsb size_is_null (unitType store)) api_data.

(** The body of [for range_start, range_end in ranges]. An answer that is
    [None] or an empty list is falsy and adds nothing; any other is
    parsed, outside any [try]. Once the parser has raised nothing more is
    done. *)
Definition fetch_range (store_id : Z) (acc : progress * state)
    (range : Z * Z) : progress * state :=
  if raised acc.1 then acc
  else
    let '(range_start, range_end) := range in
    let '(api_data, st') := fetch_historical_data auth hist 3 acc.2 in
    let calls := requested acc.1 ++ [(store_id, range_start, range_end)] in
    match api_data with
    | Some (store :: stores) =>
        if parse_raises (store :: stores)
        then ({| api_records := api_records acc.1; requested := calls;
                 raised := true |}, st')
        else ({| api_records :=
                   api_records acc.1 ++ parse_api_rate_data (store :: stores);
                 requested := calls; raised := false |}, st')
    | _ => ({| api_records := api_records acc.1; requested := calls;
               raised := false |}, st')
    end.

(** The body of [for store_id in api_store_ids]; a store without missing
    dates is skipped. *)
Definition backfill_store (gaps_by_store : gmap Z (list Z))
    (acc : progress * state) (store_id : Z) : progress * state :=
  match default [] (gaps_by_store !! store_id) with
  | [] => acc
  | missing_dates =>
      fold_left (fetch_range store_id) (Gap.group_ranges missing_dates) acc
  end.

(** Step 10 of [main], under [if api_store_ids and api_days > 0]. *)
Definition backfill (api_store_ids : list Z) (api_days : Z)
    (gaps_by_store : gmap Z (list Z)) (st : state) : progress * state :=
  match api_store_ids with
  | [] => (nothing, st)
  | _ =>
      if bool_decide (0 < api_days)
      then fold_left (backfill_store gaps_by_store) api_store_ids (nothing, st)
      else (nothing, st)
  end.














Lemma fetch_range_window_inv store_id acc range :
  window_inv acc.2 → window_inv (fetch_range store_id acc range).2.
Proof.
  intros Hinv. unfold fetch_range. destruct (raised acc.1); [done|].
  destruct range as [range_start range_end].
  pose proof (window_inv_run_attempts auth hist 3 (seqZ 0 3) acc.2 Hinv) as H.
  fold (fetch_historical_data auth hist 3 acc.2) in H.
  destruct (fetch_historical_data auth hist 3 acc.2)
    as [[[|store stores]|] st']; cbn [snd] in *; try done.
  by destruct (parse_raises (store :: stores)).
Qed.

Lemma backfill_store_window_inv gaps_by_store acc store_id :
  window_inv acc.2 →
  window_inv (backfill_store gaps_by_store acc store_id).2.
Proof.
  unfold backfill_store.
  destruct (default [] (gaps_by_store !! store_id)) as [|d missing]; [done|].
  generalize (Gap.group_ranges (d :: missing)). intros ranges. revert acc.
  induction ranges as [|range ranges IH]; intros acc Hacc; simpl; [done|].
  by apply IH, fetch_range_window_inv.
Qed.

End Loop.

Definition example_stores : list Z := [1].

Definition example_gaps : gmap Z (list Z) :=
  {[ 1 := [739223; 739224; 739228] ]}.




(** A payload with a null size for the first range: the parser raises and
    the second range is never requested. *)
Definition null_size_unit : api_unit :=
  {| type := "Unit"; unit_size := ""; price := [] |}.

Definition sends_null_size (n : nat) : post_result :=
  Responded
    {| status_code := 200; text := "{}";
       json_body :=
         Some (JsonObject {| storeID := 1; unitType := [null_size_unit] |}) |}.

Lemma null_size_ends_backfill :
  let r := backfill no_login sends_null_size (λ _, true) example_stores 3
             example_gaps fresh in
  requested r.1 = [(1, 739223, 739224)] ∧ raised r.1 = true
  ∧ length (hist_posts r.2) = 1%nat.
Proof. by vm_compute. Qed.

(** X24. The limiter's bookkeeping holds across the whole back-fill: from
    a state in which no window has more than N answered requests, the
    back-fill of any stores and ranges ends in such a state. *)
Theorem backfill_keeps_window_limit (auth : nat → auth_result)
    (hist : nat → post_result) (size_is_null : api_unit → bool)
    (api_store_ids : list Z) (api_days : Z)
    (gaps_by_store : gmap Z (list Z)) (st : state) :
  window_inv st →
  let st' := (backfill auth hist size_is_null api_store_ids api_days
                gaps_by_store st).2 in
  window_inv st'
  ∧ ∀ w, Z.of_nat (answered_in w (hist_posts st')) ≤ RATE_LIMIT_PER_HOUR.
Proof.
  intros Hinv st'.
  assert (window_inv st') as Hinv'.
  { subst st'. unfold backfill.
    destruct api_store_ids as [|sid ids]; [done|].
    case_bool_decide; [|done].
    generalize (sid :: ids). intros store_ids.
    assert (window_inv ((nothing, st) : progress * state).2) as Hinit
      by done.
    revert Hinit. generalize ((nothing, st) : progress * state).
    induction store_ids as [|s store_ids IH]; intros acc Hacc; simpl; [done|].
    by apply IH, backfill_store_window_inv. }
  split; [done|]. by destruct Hinv' as (_ & _ & _ & Hall).
Qed.

Lemma backfill_keeps_window_limit_witness :
  window_inv
    (backfill no_login always_unavailable (λ _, false) example_stores 3
       example_gaps fresh).2.
Proof.
  apply (backfill_keeps_window_limit no_login always_unavailable (λ _, false)
           example_stores 3 example_gaps fresh).
  apply window_inv_fresh.
Defined.

End Backfill.
